(** * webrtc-client-server: bouncing-ball server and detecting client

    A shallow embedding of [server/server.py] and [client/client.py].
    Python integers are [Z]; attribute mutation is explicit state passing;
    a raised exception is the [Raise] branch of [result]. *)

From Stdlib Require Import ZArith QArith List Sorted FinFun String Ascii Bool Lia.
From Stdlib Require Import Uint63 Floats.PrimFloat Floats.FloatOps Floats.SpecFloat.
From Stdlib Require Import Decimal DecimalFacts DecimalPos DecimalString DecimalZ.
From Stdlib Require Import Reals Lra.
Import ListNotations.

Local Open Scope string_scope.
Local Open Scope Z_scope.

(** ** Exceptions *)

Inductive exn : Type :=
| AttributeError
| KeyError
| TypeError
| ValueError
| IndexError
| OverflowError
| InvalidStateError
| LiteralEvalError.  (* whichever exception [ast.literal_eval] raises *)

Inductive result (A : Type) : Type :=
| Ok (a : A)
| Raise (e : exn).
Arguments Ok {A} a.
Arguments Raise {A} e.

Definition bind {A B : Type} (m : result A) (k : A -> result B) : result B :=
  match m with
  | Ok a => k a
  | Raise e => Raise e
  end.

Notation "x <- m ;; k" := (bind m (fun x => k))
  (at level 61, m at next level, right associativity).
Notation "' p <- m ;; k" := (bind m (fun x => let p := x in k))
  (at level 61, p pattern, m at next level, right associativity).

Fixpoint iter {A : Type} (n : nat) (f : A -> A) (a : A) : A :=
  match n with
  | O => a
  | S k => iter k f (f a)
  end.

(** ** Python values, [str] and [ast.literal_eval]

    The two library functions through which coordinates cross the data
    channel.  [literal_eval] is modelled on a fragment of the literals:
    [None], [True], [False], decimal integers of fewer than 600 digits
    with an optional sign, quoted strings of printable ASCII without
    backslash, lists, parenthesised tuples and dict displays, nested at
    most 20 deep and separated by spaces or tabs.  On a text outside the
    fragment the model gives no answer ([Unmodelled]); it says [Malformed]
    only where [ast.literal_eval] raises, whatever the exception. *)

Module Py.

#[warnings="-register-all"] Inductive pyval : Type :=
| PNone
| PBool (b : bool)
| PInt (z : Z)
| PStr (s : string)
| PTuple (items : list pyval)
| PList (items : list pyval)
| PDict (items : list (pyval * pyval)).

(** [bool] is a subclass of [int]: [True == 1], [False == 0]. *)
Definition as_int (v : pyval) : option Z :=
  match v with
  | PInt z => Some z
  | PBool b => Some (if b then 1 else 0)
  | _ => None
  end.

Fixpoint hashable (v : pyval) : bool :=
  match v with
  | PList _ | PDict _ => false
  | PTuple items => forallb hashable items
  | _ => true
  end.

(** Equality of hashable keys. *)
Fixpoint key_eqb (a b : pyval) : bool :=
  match a, b with
  | PNone, PNone => true
  | PStr s, PStr t => String.eqb s t
  | PTuple xs, PTuple ys =>
      (fix all2 (xs ys : list pyval) : bool :=
         match xs, ys with
         | [], [] => true
         | x :: xs', y :: ys' => key_eqb x y && all2 xs' ys'
         | _, _ => false
         end) xs ys
  | _, _ =>
      match as_int a, as_int b with
      | Some x, Some y => x =? y
      | _, _ => false
      end
  end.

Fixpoint dict_get (k : pyval) (d : list (pyval * pyval)) : option pyval :=
  match d with
  | [] => None
  | (k', v) :: rest => if key_eqb k' k then Some v else dict_get k rest
  end.

(** Insertion keeps the position of a key already present. *)
Fixpoint dict_set (k v : pyval) (d : list (pyval * pyval)) : list (pyval * pyval) :=
  match d with
  | [] => [(k, v)]
  | (k', v') :: rest =>
      if key_eqb k' k then (k', v) :: rest else (k', v') :: dict_set k v rest
  end.

(** [obj[key]] *)
Definition getitem (obj key : pyval) : result pyval :=
  match obj with
  | PDict d =>
      if hashable key
      then match dict_get key d with
           | Some v => Ok v
           | None => Raise KeyError
           end
      else Raise TypeError
  | PList items | PTuple items =>
      match key with
      | PInt i =>
          let n := Z.of_nat (List.length items) in
          let j := if i <? 0 then i + n else i in
          if (0 <=? j) && (j <? n)
          then match nth_error items (Z.to_nat j) with
               | Some v => Ok v
               | None => Raise IndexError
               end
          else Raise IndexError
      | PBool b =>
          match nth_error items (if b then 1%nat else 0%nat) with
          | Some v => Ok v
          | None => Raise IndexError
          end
      | _ => Raise TypeError
      end
  | _ => Raise TypeError
  end.

(** *** [str] / [repr] *)

Definition repr_int (z : Z) : string := NilZero.string_of_int (Z.to_int z).

Fixpoint join (sep : string) (parts : list string) : string :=
  match parts with
  | [] => EmptyString
  | [p] => p
  | p :: rest => p ++ sep ++ join sep rest
  end.

(** [repr] of a string free of quotes, backslashes and control characters,
    as the keys used on the channel are. *)
Definition repr_str (s : string) : string := "'" ++ s ++ "'".

Fixpoint repr (v : pyval) : string :=
  match v with
  | PNone => "None"
  | PBool true => "True"
  | PBool false => "False"
  | PInt z => repr_int z
  | PStr s => repr_str s
  | PTuple [x] => "(" ++ repr x ++ ",)"
  | PTuple items => "(" ++ join ", " (map repr items) ++ ")"
  | PList items => "[" ++ join ", " (map repr items) ++ "]"
  | PDict items =>
      "{" ++ join ", " (map (fun kv => match kv with
                                       | (k, x) => repr k ++ ": " ++ repr x
                                       end) items) ++ "}"
  end.

Definition str (v : pyval) : string :=
  match v with
  | PStr s => s
  | _ => repr v
  end.

(** *** [ast.literal_eval] *)

Inductive parsed (A : Type) : Type :=
| Parsed (a : A)
| Malformed
| Unmodelled.
Arguments Parsed {A} a.
Arguments Malformed {A}.
Arguments Unmodelled {A}.

Definition pbind {A B : Type} (m : parsed A) (k : A -> parsed B) : parsed B :=
  match m with
  | Parsed a => k a
  | Malformed => Malformed
  | Unmodelled => Unmodelled
  end.

Notation "' p <~ m ;; k" := (pbind m (fun x => let p := x in k))
  (at level 61, p pattern, m at next level, right associativity).

Definition is_ws (c : ascii) : bool :=
  (c =? " ")%char || (c =? "009")%char.

Fixpoint skip_ws (s : string) : string :=
  match s with
  | String c r => if is_ws c then skip_ws r else s
  | EmptyString => s
  end.

Definition digit_of (c : ascii) : option (uint -> uint) :=
  match c with
  | "0" => Some D0 | "1" => Some D1 | "2" => Some D2 | "3" => Some D3
  | "4" => Some D4 | "5" => Some D5 | "6" => Some D6 | "7" => Some D7
  | "8" => Some D8 | "9" => Some D9
  | _ => None
  end%char.

Definition is_digit (c : ascii) : bool :=
  match digit_of c with Some _ => true | None => false end.

Definition is_letter (c : ascii) : bool :=
  let n := nat_of_ascii c in
  ((65 <=? n) && (n <=? 90))%nat || ((97 <=? n) && (n <=? 122))%nat.

Definition is_quote (c : ascii) : bool :=
  (c =? "'")%char || (c =? "034")%char.

Definition is_open (c : ascii) : bool :=
  (c =? "{")%char || (c =? "[")%char || (c =? "(")%char.

Definition is_close (c : ascii) : bool :=
  (c =? "}")%char || (c =? "]")%char || (c =? ")")%char.

Definition is_separator (c : ascii) : bool :=
  is_ws c || (c =? ",")%char || (c =? ":")%char
  || (c =? "+")%char || (c =? "-")%char.

(** Inside a string literal: printable ASCII other than the backslash. *)
Definition is_plain (c : ascii) : bool :=
  let n := nat_of_ascii c in
  ((32 <=? n) && (n <=? 126))%nat && negb (c =? "\")%char.

Definition MAX_DEPTH : nat := 20.

(** The lexical side of the fragment.  Outside string literals only
    digits, brackets, separators and the three keywords occur, a keyword
    touching neither a digit nor another word; inside them only plain
    characters; brackets nest at most [MAX_DEPTH] deep. *)
Inductive lex_state : Type :=
| AfterOther
| AfterDigit
| AfterWord.

Fixpoint lexable (depth : nat) (prev : lex_state) (s : string) {struct s} : bool :=
  match s with
  | EmptyString => true
  | String c r =>
      if is_quote c then lexable_quoted c depth r
      else if is_digit c then
        match prev with
        | AfterWord => false
        | _ => lexable depth AfterDigit r
        end
      else if is_letter c then
        match prev with
        | AfterOther =>
            match s with
            | String "N" (String "o" (String "n" (String "e" r'))) =>
                lexable depth AfterWord r'
            | String "T" (String "r" (String "u" (String "e" r'))) =>
                lexable depth AfterWord r'
            | String "F" (String "a" (String "l" (String "s" (String "e" r')))) =>
                lexable depth AfterWord r'
            | _ => false
            end
        | _ => false
        end
      else if is_open c then
        if (depth <? MAX_DEPTH)%nat then lexable (S depth) AfterOther r else false
      else if is_close c then lexable (Nat.pred depth) AfterOther r
      else if is_separator c then lexable depth AfterOther r
      else false
  end

with lexable_quoted (q : ascii) (depth : nat) (s : string) {struct s} : bool :=
  match s with
  | EmptyString => true
  | String c r =>
      if (c =? q)%char then lexable depth AfterOther r
      else if is_plain c then lexable_quoted q depth r
      else false
  end.

(** The longest run of decimal digits at the head of [s]. *)
Fixpoint scan_digits (s : string) : uint * string :=
  match s with
  | String c r =>
      match digit_of c with
      | Some d => let (u, r') := scan_digits r in (d u, r')
      | None => (Nil, s)
      end
  | EmptyString => (Nil, s)
  end.

Definition INT_LIMIT : Z := 10 ^ 600.

(** A decimal integer literal.  A leading zero before a non-zero value is
    an error; a run of several zeros, or a value of 600 digits or more,
    is left out of the fragment. *)
Definition scan_int (s : string) : parsed (Z * string) :=
  let (u, r) := scan_digits s in
  match u with
  | Nil => Malformed
  | D0 Nil => Parsed (0, r)
  | D0 _ => if Z.of_uint u =? 0 then Unmodelled else Malformed
  | _ => if Z.of_uint u <? INT_LIMIT then Parsed (Z.of_uint u, r) else Unmodelled
  end.

(** The body of a string literal opened by quote [q]. *)
Fixpoint scan_string (q : ascii) (s : string) : parsed (string * string) :=
  match s with
  | EmptyString => Malformed
  | String c r =>
      if (c =? q)%char then Parsed (EmptyString, r)
      else '(t, r') <~ scan_string q r ;; Parsed (String c t, r')
  end.

(** A token that cannot follow a complete value.  A sign there would
    start a binary operation, which is left out of the fragment. *)
Definition unexpected {A : Type} (r : string) : parsed A :=
  match r with
  | String c _ =>
      if (c =? "+")%char || (c =? "-")%char then Unmodelled else Malformed
  | EmptyString => Malformed
  end.

Definition close_tuple (acc : list pyval) (trailing_comma : bool) : pyval :=
  match acc, trailing_comma with
  | [x], false => x
  | _, _ => PTuple (List.rev acc)
  end.

Fixpoint parse_value (fuel : nat) (s : string) {struct fuel}
  : parsed (pyval * string) :=
  match fuel with
  | O => Unmodelled
  | S fuel =>
      match skip_ws s with
      | EmptyString => Malformed
      | String c r =>
          if (c =? "{")%char then parse_dict fuel [] r
          else if (c =? "[")%char then parse_list fuel [] r
          else if (c =? "(")%char then parse_tuple fuel [] false r
          else if is_quote c then
            '(t, r') <~ scan_string c r ;;
            match skip_ws r' with
            | String c' _ =>
                if is_quote c' then Unmodelled else Parsed (PStr t, r')
            | EmptyString => Parsed (PStr t, r')
            end
          else if (c =? "-")%char then
            match skip_ws r with
            | String c' _ =>
                if is_digit c'
                then '(z, r') <~ scan_int (skip_ws r) ;; Parsed (PInt (- z), r')
                else Unmodelled
            | EmptyString => Unmodelled
            end
          else if (c =? "+")%char then
            match skip_ws r with
            | String c' _ =>
                if is_digit c'
                then '(z, r') <~ scan_int (skip_ws r) ;; Parsed (PInt z, r')
                else Unmodelled
            | EmptyString => Unmodelled
            end
          else if is_digit c then
            '(z, r') <~ scan_int (String c r) ;; Parsed (PInt z, r')
          else
            match String c r with
            | String "N" (String "o" (String "n" (String "e" r'))) =>
                Parsed (PNone, r')
            | String "T" (String "r" (String "u" (String "e" r'))) =>
                Parsed (PBool true, r')
            | String "F" (String "a" (String "l" (String "s" (String "e" r')))) =>
                Parsed (PBool false, r')
            | _ => Malformed
            end
      end
  end

with parse_list (fuel : nat) (acc : list pyval) (s : string) {struct fuel}
  : parsed (pyval * string) :=
  match fuel with
  | O => Unmodelled
  | S fuel =>
      match skip_ws s with
      | String "]" r => Parsed (PList (List.rev acc), r)
      | _ =>
          '(v, r) <~ parse_value fuel s ;;
          match skip_ws r with
          | String "," r' => parse_list fuel (v :: acc) r'
          | String "]" r' => Parsed (PList (List.rev (v :: acc)), r')
          | other => unexpected other
          end
      end
  end

with parse_tuple (fuel : nat) (acc : list pyval) (comma : bool) (s : string)
  {struct fuel} : parsed (pyval * string) :=
  match fuel with
  | O => Unmodelled
  | S fuel =>
      match skip_ws s with
      | String ")" r => Parsed (close_tuple acc comma, r)
      | _ =>
          '(v, r) <~ parse_value fuel s ;;
          match skip_ws r with
          | String "," r' => parse_tuple fuel (v :: acc) true r'
          | String ")" r' => Parsed (close_tuple (v :: acc) comma, r')
          | other => unexpected other
          end
      end
  end

with parse_dict (fuel : nat) (acc : list (pyval * pyval)) (s : string)
  {struct fuel} : parsed (pyval * string) :=
  match fuel with
  | O => Unmodelled
  | S fuel =>
      match skip_ws s with
      | String "}" r => Parsed (PDict acc, r)
      | _ =>
          '(k, r) <~ parse_value fuel s ;;
          match skip_ws r with
          | String ":" r1 =>
              '(v, r2) <~ parse_value fuel r1 ;;
              if hashable k then
                match skip_ws r2 with
                | String "," r3 => parse_dict fuel (dict_set k v acc) r3
                | String "}" r3 => Parsed (PDict (dict_set k v acc), r3)
                | other => unexpected other
                end
              else Malformed
          | String "," _ | String "}" _ =>
              (* a set display when it is the first element *)
              match acc with
              | [] => Unmodelled
              | _ => Malformed
              end
          | other => unexpected other
          end
      end
  end.

Definition starts_with_ws (s : string) : bool :=
  match s with
  | String c _ => is_ws c
  | EmptyString => false
  end.

(** The whole message must be one literal.  Leading white space and a
    comma after the literal (a tuple without parentheses) are left out of
    the fragment.  Two units of fuel per character are enough for every
    nesting the message can hold. *)
Definition literal_eval (s : string) : parsed pyval :=
  if starts_with_ws s || negb (lexable 0 AfterOther s) then Unmodelled
  else
    '(v, r) <~ parse_value (S (S (2 * String.length s))) s ;;
    match skip_ws r with
    | EmptyString => Parsed v
    | String c r' =>
        if (c =? ",")%char then Unmodelled else unexpected (String c r')
    end.

End Py.

(** ** Collaborators: signaling, peer connection, data channel

    [aiortc] is not part of the repository.  A peer connection is
    represented by the calls made on it so far; whether it accepts the next
    call, and which session description it creates, is the collaborator's
    behaviour ([MediaSession]). *)

Module Aiortc.

Record RTCSessionDescription : Type := mkDescription {
  sdp : string;
  type : string
}.

Record RTCIceCandidate : Type := mkCandidate {
  candidate : string
}.

(** What [signaling.receive()] can return; [Nothing] is any other object. *)
Inductive signal : Type :=
| Description (d : RTCSessionDescription)
| Candidate (c : RTCIceCandidate)
| BYE
| Nothing.

Inductive pc_call : Type :=
| CreateDataChannel (label : string)
| AddTrack
| On (event : string)
| CreateOffer
| CreateAnswer
| SetLocalDescription (d : RTCSessionDescription)
| SetRemoteDescription (d : RTCSessionDescription)
| AddIceCandidate (c : RTCIceCandidate).

Definition RTCPeerConnection : Type := list pc_call.

Record MediaSession : Type := mkSession {
  raises_on : RTCPeerConnection -> pc_call -> option exn;
  created_sdp : RTCPeerConnection -> string
}.

Definition invoke (ms : MediaSession) (c : pc_call) (pc : RTCPeerConnection)
  : result RTCPeerConnection :=
  match raises_on ms pc c with
  | Some e => Raise e
  | None => Ok (pc ++ [c])%list
  end.

Definition createOffer (ms : MediaSession) (pc : RTCPeerConnection)
  : result (RTCSessionDescription * RTCPeerConnection) :=
  pc' <- invoke ms CreateOffer pc ;;
  Ok ({| sdp := created_sdp ms pc; type := "offer" |}, pc').

Definition createAnswer (ms : MediaSession) (pc : RTCPeerConnection)
  : result (RTCSessionDescription * RTCPeerConnection) :=
  pc' <- invoke ms CreateAnswer pc ;;
  Ok ({| sdp := created_sdp ms pc; type := "answer" |}, pc').

(** The [localDescription] property: the last local description applied. *)
Fixpoint localDescription (pc : RTCPeerConnection) : option RTCSessionDescription :=
  match pc with
  | [] => None
  | c :: rest =>
      match localDescription rest with
      | Some d => Some d
      | None => match c with
                | SetLocalDescription d => Some d
                | _ => None
                end
      end
  end.

Fixpoint local_applied (pc : RTCPeerConnection) : list RTCSessionDescription :=
  match pc with
  | [] => []
  | SetLocalDescription d :: rest => d :: local_applied rest
  | _ :: rest => local_applied rest
  end.

Fixpoint remote_applied (pc : RTCPeerConnection) : list RTCSessionDescription :=
  match pc with
  | [] => []
  | SetRemoteDescription d :: rest => d :: remote_applied rest
  | _ :: rest => remote_applied rest
  end.

Fixpoint candidates_applied (pc : RTCPeerConnection) : list RTCIceCandidate :=
  match pc with
  | [] => []
  | AddIceCandidate c :: rest => c :: candidates_applied rest
  | _ :: rest => candidates_applied rest
  end.

(** A peer connection that accepts every call. *)
Definition permissive : MediaSession :=
  {| raises_on := fun _ _ => None; created_sdp := fun _ => "v=0" |}.

(** A peer connection that enforces the offer/answer signaling states. *)
Inductive signaling_state : Type :=
| stable
| have_local_offer
| have_remote_offer.

Definition signaling_step (st : signaling_state) (c : pc_call) : signaling_state :=
  match c with
  | SetLocalDescription d =>
      if (type d =? "offer")%string then have_local_offer
      else if (type d =? "answer")%string then stable else st
  | SetRemoteDescription d =>
      if (type d =? "offer")%string then have_remote_offer
      else if (type d =? "answer")%string then stable else st
  | _ => st
  end.

Definition signalingState (pc : RTCPeerConnection) : signaling_state :=
  fold_left signaling_step pc stable.

Definition checked (ok : bool) : option exn :=
  if ok then None else Some InvalidStateError.

Definition state_checking : MediaSession :=
  {| raises_on := fun pc c =>
       let st := signalingState pc in
       match c with
       | SetLocalDescription d =>
           if (type d =? "offer")%string
           then checked (match st with have_remote_offer => false | _ => true end)
           else checked (match st with have_remote_offer => true | _ => false end)
       | SetRemoteDescription d =>
           if (type d =? "offer")%string
           then checked (match st with have_local_offer => false | _ => true end)
           else checked (match st with have_local_offer => true | _ => false end)
       | CreateAnswer =>
           checked (match st with have_remote_offer => true | _ => false end)
       | _ => None
       end;
     created_sdp := fun _ => "v=0" |}.

(** Why a signaling-consumption loop stopped making calls. *)
Inductive loop_exit : Type :=
| Closed      (* [BYE] received: [break] *)
| Waiting.    (* nothing more inbound: suspended in [receive()] *)

Record TcpSocketSignaling : Type := mkSignaling {
  inbox : list signal;
  outbox : list (option RTCSessionDescription)
}.

(** A data-channel message is [str] or [bytes]. *)
Inductive message : Type :=
| Text (s : string)
| Binary (b : list ascii).

Record RTCDataChannel : Type := mkChannel {
  label : string;
  readyState : string;
  sent : list message
}.

(** [channel.send(data)] on an open channel. *)
Definition send (data : message) (ch : RTCDataChannel) : RTCDataChannel :=
  {| label := label ch; readyState := readyState ch; sent := (sent ch ++ [data])%list |}.

End Aiortc.

(** ** server.py: module constants *)

Module Server.

Definition SCREEN_HEIGHT : Z := 640.
Definition SCREEN_WIDTH : Z := 480.
Definition VIDEO_CLOCK_RATE : Z := 90000.

(** [VIDEO_PTIME = 1 / 30] is a binary64 float in the source. *)
Definition VIDEO_PTIME : float := (1 / 30)%float.

(** Python's [int(f)] on a finite float: truncation toward zero. *)
Definition int_of_float (f : float) : Z :=
  match Prim2SF f with
  | S754_finite s m e =>
      let a := match e with
               | Zneg k => Z.shiftr (Zpos m) (Zpos k)
               | _ => Z.shiftl (Zpos m) e
               end in
      if s then - a else a
  | _ => 0
  end.

(** Python's [round(f)] on a finite float: nearest integer, ties to even. *)
Definition round_of_float (f : float) : Z :=
  match Prim2SF f with
  | S754_finite s m e =>
      let a := match e with
               | Zneg k =>
                   let q := Z.shiftr (Zpos m) (Zpos k) in
                   let r := Zpos m - Z.shiftl q (Zpos k) in
                   let h := Z.shiftl 1 (Zpos k - 1) in
                   if r <? h then q
                   else if h <? r then q + 1
                   else if Z.even q then q else q + 1
               | _ => Z.shiftl (Zpos m) e
               end in
      if s then - a else a
  | _ => 0
  end.

(** The per-frame increment [int(VIDEO_PTIME * VIDEO_CLOCK_RATE)]. *)
Definition frame_ticks : Z :=
  int_of_float (VIDEO_PTIME * of_uint63 (Uint63.of_Z VIDEO_CLOCK_RATE))%float.

(** ** BouncingBallTrack *)

(** The attributes set by [__init__], plus [_start] and [_timestamp],
    which exist only once [next_timestamp] has run ([hasattr]).
    Wall-clock readings ([time.time()]) are kept as exact rationals. *)
Record BouncingBallTrack : Type := mkTrack {
  screen_size : Z * Z;
  position_x : Z;
  position_y : Z;
  speed_x : Z;
  speed_y : Z;
  ball_radius : Z;
  ball_color : Z * Z * Z;
  _start : option Q;
  _timestamp : option Z
}.

Definition init : BouncingBallTrack :=
  let screen_size := (SCREEN_HEIGHT, SCREEN_WIDTH) in
  {| screen_size := screen_size;
     position_x := fst screen_size / 2;
     position_y := snd screen_size / 2;
     speed_x := 1;
     speed_y := 1;
     ball_radius := 20;
     ball_color := (0, 0, 255);
     _start := None;
     _timestamp := None |}.

Definition set_position (x y : Z) (b : BouncingBallTrack) : BouncingBallTrack :=
  {| screen_size := screen_size b; position_x := x; position_y := y;
     speed_x := speed_x b; speed_y := speed_y b;
     ball_radius := ball_radius b; ball_color := ball_color b;
     _start := _start b; _timestamp := _timestamp b |}.

Definition set_speed_x (v : Z) (b : BouncingBallTrack) : BouncingBallTrack :=
  {| screen_size := screen_size b;
     position_x := position_x b; position_y := position_y b;
     speed_x := v; speed_y := speed_y b;
     ball_radius := ball_radius b; ball_color := ball_color b;
     _start := _start b; _timestamp := _timestamp b |}.

Definition set_speed_y (v : Z) (b : BouncingBallTrack) : BouncingBallTrack :=
  {| screen_size := screen_size b;
     position_x := position_x b; position_y := position_y b;
     speed_x := speed_x b; speed_y := v;
     ball_radius := ball_radius b; ball_color := ball_color b;
     _start := _start b; _timestamp := _timestamp b |}.

(** [update_delta_with_bound]: on each axis the far-boundary test comes
    first and the near-boundary test is its [elif]. *)
Definition update_delta_with_bound (self : BouncingBallTrack) : BouncingBallTrack :=
  let self :=
    if position_x self + ball_radius self >=? fst (screen_size self)
    then set_speed_x (speed_x self * -1) self
    else if position_x self - ball_radius self <=? 0
    then set_speed_x (speed_x self * -1) self
    else self in
  if position_y self + ball_radius self >=? snd (screen_size self)
  then set_speed_y (speed_y self * -1) self
  else if position_y self - ball_radius self <=? 0
  then set_speed_y (speed_y self * -1) self
  else self.

(** What [get_next_image] draws: a white canvas of the given shape with one
    filled disc. *)
Record image : Type := mkImage {
  img_rows : Z;
  img_cols : Z;
  disc_center : Z * Z;
  disc_radius : Z;
  disc_color : Z * Z * Z
}.

Definition get_next_image (self : BouncingBallTrack) : image * BouncingBallTrack :=
  let self := set_position (position_x self + speed_x self)
                           (position_y self) self in
  let self := set_position (position_x self)
                           (position_y self + speed_y self) self in
  let frame := {| img_rows := snd (screen_size self);
                  img_cols := fst (screen_size self);
                  disc_center := (position_x self, position_y self);
                  disc_radius := ball_radius self;
                  disc_color := ball_color self |} in
  (frame, update_delta_with_bound self).

(** One simulator tick: the state left behind by [get_next_image]. *)
Definition tick (self : BouncingBallTrack) : BouncingBallTrack :=
  snd (get_next_image self).

Definition ticks (n : nat) (self : BouncingBallTrack) : BouncingBallTrack :=
  iter n tick self.

(** The ball constructed by [__init__] and then placed at [(x, y)]. *)
Definition start_at (x y : Z) : BouncingBallTrack := set_position x y init.

(** Radius-respecting containment on both axes. *)
Definition contained (b : BouncingBallTrack) : Prop :=
  ball_radius b <= position_x b <= fst (screen_size b) - ball_radius b /\
  ball_radius b <= position_y b <= snd (screen_size b) - ball_radius b.

(** *** Frame pacing *)

Definition VIDEO_TIME_BASE : Q := 1 # 90000.

(** [asyncio.sleep(delay)]: the time the caller stays suspended.  A delay
    that is zero or negative yields once and returns. *)
Definition asyncio_sleep (delay : Q) : Q :=
  if Qle_bool delay 0 then 0%Q else delay.

Definition set_timestamp (ts : Z) (b : BouncingBallTrack) : BouncingBallTrack :=
  {| screen_size := screen_size b;
     position_x := position_x b; position_y := position_y b;
     speed_x := speed_x b; speed_y := speed_y b;
     ball_radius := ball_radius b; ball_color := ball_color b;
     _start := _start b; _timestamp := Some ts |}.

Definition set_start (t : Q) (b : BouncingBallTrack) : BouncingBallTrack :=
  {| screen_size := screen_size b;
     position_x := position_x b; position_y := position_y b;
     speed_x := speed_x b; speed_y := speed_y b;
     ball_radius := ball_radius b; ball_color := ball_color b;
     _start := Some t; _timestamp := _timestamp b |}.

(** [next_timestamp], with [now] the value [time.time()] returns during
    the call.  The result carries the returned pair, the arguments handed
    to [asyncio.sleep] during the call, and the updated track. *)
Definition next_timestamp (now : Q) (self : BouncingBallTrack)
  : result (Z * Q * list Q * BouncingBallTrack) :=
  match _timestamp self with
  | Some ts =>
      let self := set_timestamp (ts + frame_ticks) self in
      match _start self, _timestamp self with
      | Some start, Some ts' =>
          let wait := (start + (inject_Z ts' / inject_Z VIDEO_CLOCK_RATE) - now)%Q in
          Ok (ts', VIDEO_TIME_BASE, [wait], self)
      | _, _ => Raise AttributeError
      end
  | None =>
      let self := set_start now self in
      let self := set_timestamp 0 self in
      Ok (0, VIDEO_TIME_BASE, [], self)
  end.

Record VideoFrame : Type := mkFrame {
  frame_image : image;
  pts : Z;
  time_base : Q
}.

Definition recv (now : Q) (self : BouncingBallTrack)
  : result (VideoFrame * list Q * BouncingBallTrack) :=
  let (next_img, self) := get_next_image self in
  '(pts, time_base, sleeps, self) <- next_timestamp now self ;;
  Ok ({| frame_image := next_img; pts := pts; time_base := time_base |},
      sleeps, self).

(** Successive calls of [next_timestamp], one clock reading per call:
    the timestamps returned and the sleep arguments, in call order. *)
Fixpoint pace (clock : list Q) (self : BouncingBallTrack)
  : result (list Z * list Q * BouncingBallTrack) :=
  match clock with
  | [] => Ok ([], [], self)
  | now :: clock =>
      '(ts, _, sleeps, self) <- next_timestamp now self ;;
      '(tss, sleeps', self) <- pace clock self ;;
      Ok (ts :: tss, (sleeps ++ sleeps')%list, self)
  end.

(** Successive calls of [recv]: the frames produced and the sleep
    arguments. *)
Fixpoint produce (clock : list Q) (self : BouncingBallTrack)
  : result (list VideoFrame * list Q * BouncingBallTrack) :=
  match clock with
  | [] => Ok ([], [], self)
  | now :: clock =>
      '(frame, sleeps, self) <- recv now self ;;
      '(frames, sleeps', self) <- produce clock self ;;
      Ok (frame :: frames, (sleeps ++ sleeps')%list, self)
  end.

(** *** Server *)

Import Aiortc.

Fixpoint consume_signaling (ms : MediaSession)
  (peer_connection : RTCPeerConnection)
  (inbox : list signal) (outbox : list (option RTCSessionDescription))
  {struct inbox}
  : result (RTCPeerConnection * list (option RTCSessionDescription) * loop_exit) :=
  match inbox with
  | [] => Ok (peer_connection, outbox, Waiting)
  | obj :: inbox =>
      match obj with
      | Description d =>
          pc <- invoke ms (SetRemoteDescription d) peer_connection ;;
          if (type d =? "offer")%string then
            '(ans, pc) <- createAnswer ms pc ;;
            pc <- invoke ms (SetLocalDescription ans) pc ;;
            consume_signaling ms pc inbox (outbox ++ [localDescription pc])%list
          else consume_signaling ms pc inbox outbox
      | Candidate c =>
          pc <- invoke ms (AddIceCandidate c) peer_connection ;;
          consume_signaling ms pc inbox outbox
      | BYE => Ok (peer_connection, outbox, Closed)
      | Nothing => consume_signaling ms peer_connection inbox outbox
      end
  end.

Inductive log_record : Type :=
| ChannelCreated (label : string)
| Received (label : string) (v : Py.pyval)
| ComputedError (actual_x actual_y : Z) (distance : R).

(** [value - n] for an [int] [n]. *)
Definition sub_int (value : Py.pyval) (n : Z) : result Z :=
  match Py.as_int value with
  | Some z => Ok (z - n)
  | None => Raise TypeError
  end.

(** From this integer on, the conversion of an [int] to binary64 (round
    to nearest, ties to even) overflows. *)
Definition FLOAT_OVERFLOW : Z := 2 ^ 1024 - 2 ^ 970.

(** [math.sqrt] of an [int]: [ValueError] below zero, [OverflowError] when
    the integer does not convert to a float; otherwise the square root,
    taken as the real number (the rounding of binary64 is not modelled). *)
Definition math_sqrt (n : Z) : result R :=
  if n <? 0 then Raise ValueError
  else if n <? FLOAT_OVERFLOW then Ok (sqrt (IZR n))
  else Raise OverflowError.

Definition compute_error (balltrack : BouncingBallTrack)
  (client_coordinate : Py.pyval) : result (R * log_record) :=
  let actual_x := position_x balltrack in
  let actual_y := position_y balltrack in
  cx <- Py.getitem client_coordinate (Py.PStr "x") ;;
  dx <- sub_int cx actual_x ;;
  cy <- Py.getitem client_coordinate (Py.PStr "y") ;;
  dy <- sub_int cy actual_y ;;
  distance <- math_sqrt (dx ^ 2 + dy ^ 2) ;;
  Ok (distance, ComputedError actual_x actual_y distance).

(** The ["message"] handler of the data channel: what it logs, and whether
    it returns or raises; [None] for a text on which the model of
    [ast.literal_eval] gives no answer. *)
Definition on_message (channel_label : string) (balltrack : BouncingBallTrack)
  (message : Aiortc.message) : option (list log_record * result unit) :=
  match message with
  | Text s =>
      match Py.literal_eval s with
      | Py.Unmodelled => None
      | Py.Malformed => Some ([], Raise LiteralEvalError)
      | Py.Parsed client_coordinate =>
          let received := Received channel_label client_coordinate in
          match compute_error balltrack client_coordinate with
          | Raise e => Some ([received], Raise e)
          | Ok (_, computed) => Some ([received; computed], Ok tt)
          end
      end
  | Binary _ => Some ([], Ok tt)
  end.

Definition run_offer (ms : MediaSession) (peer_connection : RTCPeerConnection)
  (inbox : list signal)
  : result (RTCPeerConnection * list (option RTCSessionDescription)
            * BouncingBallTrack * loop_exit) :=
  pc <- invoke ms (CreateDataChannel "coordinates") peer_connection ;;
  let balltrack := init in
  pc <- invoke ms AddTrack pc ;;
  '(offer, pc) <- createOffer ms pc ;;
  pc <- invoke ms (SetLocalDescription offer) pc ;;
  let outbox := [localDescription pc] in
  '(pc, outbox, exit) <- consume_signaling ms pc inbox outbox ;;
  Ok (pc, outbox, balltrack, exit).

End Server.

(** ** client.py *)

Module Client.

Import Aiortc.

(** The queues are FIFO lists, oldest element first. *)
Record Client : Type := mkClient {
  image_queue : list Server.image;
  coordinate_queue : list Py.pyval;
  channel : option RTCDataChannel
}.

Definition init : Client :=
  {| image_queue := []; coordinate_queue := []; channel := None |}.

(** A C [int] cell ([mp.Value("i", ...)]): stores wrap to 32 bits. *)
Definition c_int (z : Z) : Z := (z + 2 ^ 31) mod 2 ^ 32 - 2 ^ 31.

Section ImageParser.

(** The circle-detection primitive. *)
Variable detect_center : Server.image -> option (Z * Z).

(** One iteration of [ImageParser.run], once [image_queue.get()] has an
    image to return. *)
Definition run_iteration (self : Client) : Client :=
  match image_queue self with
  | [] => self
  | image :: images =>
      match detect_center image with
      | Some center =>
          let current_x := c_int (fst center) in
          let current_y := c_int (snd center) in
          {| image_queue := images;
             coordinate_queue :=
               (coordinate_queue self ++
                [Py.PDict [(Py.PStr "x", Py.PInt current_x);
                           (Py.PStr "y", Py.PInt current_y)]])%list;
             channel := channel self |}
      | None =>
          {| image_queue := images;
             coordinate_queue := coordinate_queue self;
             channel := channel self |}
      end
  end.

End ImageParser.

(** One iteration of the [while True] loop of
    [send_coordinates_to_server], up to its [asyncio.sleep(0.01)]; the
    second component is what was handed to [channel.send]. *)
Definition send_coordinates_iteration (self : Client) : Client * list message :=
  match channel self with
  | Some ch =>
      if (readyState ch =? "open")%string then
        match coordinate_queue self with
        | coordinates :: rest =>
            let data := Text (Py.str coordinates) in
            ({| image_queue := image_queue self;
                coordinate_queue := rest;
                channel := Some (send data ch) |}, [data])
        | [] => (self, [])
        end
      else (self, [])
  | None => (self, [])
  end.

(** What other tasks and the detection process do to the client between
    two iterations of the loop. *)
Inductive event : Type :=
| Put (coordinates : Py.pyval)
| OnDatachannel (ch : RTCDataChannel)
| ReadyState (s : string).

Definition apply_event (self : Client) (e : event) : Client :=
  match e with
  | Put c =>
      {| image_queue := image_queue self;
         coordinate_queue := (coordinate_queue self ++ [c])%list;
         channel := channel self |}
  | OnDatachannel ch =>
      {| image_queue := image_queue self;
         coordinate_queue := coordinate_queue self;
         channel := Some ch |}
  | ReadyState s =>
      {| image_queue := image_queue self;
         coordinate_queue := coordinate_queue self;
         channel := match channel self with
                    | Some ch => Some {| label := label ch; readyState := s;
                                         sent := sent ch |}
                    | None => None
                    end |}
  end.

(** The loop run for as many iterations as [schedule] has entries, each
    entry being the events that occur while the loop sleeps after that
    iteration.  The result lists what each iteration sent. *)
Fixpoint send_coordinates_to_server (schedule : list (list event)) (self : Client)
  : Client * list (list message) :=
  match schedule with
  | [] => (self, [])
  | events :: schedule =>
      let (self, out) := send_coordinates_iteration self in
      let self := fold_left apply_event events self in
      let (self, outs) := send_coordinates_to_server schedule self in
      (self, out :: outs)
  end.

Fixpoint consume_signaling (ms : MediaSession)
  (peer_connection : RTCPeerConnection)
  (inbox : list signal) (outbox : list (option RTCSessionDescription))
  {struct inbox}
  : result (RTCPeerConnection * list (option RTCSessionDescription) * loop_exit) :=
  match inbox with
  | [] => Ok (peer_connection, outbox, Waiting)
  | obj :: inbox =>
      match obj with
      | Description d =>
          pc <- invoke ms (SetRemoteDescription d) peer_connection ;;
          if (type d =? "offer")%string then
            '(ans, pc) <- createAnswer ms pc ;;
            pc <- invoke ms (SetLocalDescription ans) pc ;;
            consume_signaling ms pc inbox (outbox ++ [localDescription pc])%list
          else consume_signaling ms pc inbox outbox
      | Candidate c =>
          pc <- invoke ms (AddIceCandidate c) peer_connection ;;
          consume_signaling ms pc inbox outbox
      | BYE => Ok (peer_connection, outbox, Closed)
      | Nothing => consume_signaling ms peer_connection inbox outbox
      end
  end.

Definition run_answer (ms : MediaSession) (peer_connection : RTCPeerConnection)
  (inbox : list signal)
  : result (RTCPeerConnection * list (option RTCSessionDescription) * loop_exit) :=
  pc <- invoke ms (On "track") peer_connection ;;
  pc <- invoke ms (On "datachannel") pc ;;
  consume_signaling ms pc inbox [].

(** *** VideoReceiveTrack

    The track holds the client's [image_queue]; its methods act on the
    client that owns the queue.  [display_call] records the calls made on
    the window. *)
Inductive display_call : Type :=
| Imshow (window : string) (image : Server.image)
| WaitKey (delay : Z).

Definition process_image (image : Server.image) (self : Client)
  : Client * list display_call :=
  ({| image_queue := (image_queue self ++ [image])%list;
      coordinate_queue := coordinate_queue self;
      channel := channel self |},
   [Imshow "Remote Stream" image; WaitKey 10]).

(** [recv], with [frame] what [self.track.recv()] returned. *)
Definition recv (frame : Server.VideoFrame) (self : Client)
  : Server.VideoFrame * Client * list display_call :=
  let image := Server.frame_image frame in
  let (self, shown) := process_image image self in
  (frame, self, shown).

(** Successive calls of [recv], one per frame of the underlying track. *)
Fixpoint receive (frames : list Server.VideoFrame) (self : Client)
  : list Server.VideoFrame * Client * list display_call :=
  match frames with
  | [] => ([], self, [])
  | frame :: frames =>
      let '(out, self, shown) := recv frame self in
      let '(outs, self, shown') := receive frames self in
      (out :: outs, self, (shown ++ shown')%list)
  end.

End Client.

(** ** Predicates used in the statements *)

(** On one axis: the position lies in [[lo, hi]], the velocity is a unit
    step, and at either limit it points back inside. *)
Definition inward (lo hi p v : Z) : Prop :=
  lo <= p <= hi /\ (v = 1 \/ v = -1) /\ (p = hi -> v = -1) /\ (p = lo -> v = 1).

Definition safe (b : Server.BouncingBallTrack) : Prop :=
  inward (Server.ball_radius b)
         (fst (Server.screen_size b) - Server.ball_radius b)
         (Server.position_x b) (Server.speed_x b) /\
  inward (Server.ball_radius b)
         (snd (Server.screen_size b) - Server.ball_radius b)
         (Server.position_y b) (Server.speed_y b).

(** The ball of [__init__] placed at [(x, y)] with velocity [(vx, vy)]. *)
Definition launched (x y vx vy : Z) : Server.BouncingBallTrack :=
  Server.set_speed_y vy (Server.set_speed_x vx (Server.start_at x y)).

(** The argument [next_timestamp] computes for [asyncio.sleep]: the ideal
    instant of timestamp [ts] minus the clock reading. *)
Definition wait_for (start : Q) (ts : Z) (now : Q) : Q :=
  (start + inject_Z ts / inject_Z Server.VIDEO_CLOCK_RATE - now)%Q.

(** The ideal wall-clock instant of the [k]-th call after the first. *)
Definition ideal (start : Q) (k : nat) : Q :=
  (start + inject_Z (Z.of_nat k * Server.frame_ticks)
           / inject_Z Server.VIDEO_CLOCK_RATE)%Q.

Definition stamps_from (ts : Z) (n : nat) : list Z :=
  map (fun k => ts + Z.of_nat (S k) * Server.frame_ticks) (seq 0 n).

Fixpoint waits_from (start : Q) (ts : Z) (clock : list Q) : list Q :=
  match clock with
  | [] => []
  | now :: clock =>
      wait_for start (ts + Server.frame_ticks) now
      :: waits_from start (ts + Server.frame_ticks) clock
  end.

(** The mapping [{"x": x, "y": y}] that the client queues and sends. *)
Definition coordinate (x y : Z) : Py.pyval :=
  Py.PDict [(Py.PStr "x", Py.PInt x); (Py.PStr "y", Py.PInt y)].

(** What may follow the last digit of an integer literal. *)
Definition stops_number (rest : string) : bool :=
  match rest with
  | EmptyString => true
  | String c _ => negb (Py.is_digit c)
  end.

(** A value from which [compute_error] can read a position: a mapping
    with numeric entries under ["x"] and ["y"]. *)
Definition is_xy_mapping (v : Py.pyval) : bool :=
  match v with
  | Py.PDict d =>
      match Py.dict_get (Py.PStr "x") d, Py.dict_get (Py.PStr "y") d with
      | Some a, Some b =>
          match Py.as_int a, Py.as_int b with
          | Some _, Some _ => true
          | _, _ => false
          end
      | _, _ => false
      end
  | _ => false
  end.


(** The squared distance between a report and the ball. *)
Definition squared_distance (b : Server.BouncingBallTrack) (x y : Z) : Z :=
  (x - Server.position_x b) ^ 2 + (y - Server.position_y b) ^ 2.

(** The timestamps returned by a run of the pacer. *)
Definition timestamps_of {A B : Type} (r : result (list Z * A * B)) : list Z :=
  match r with
  | Ok (tss, _, _) => tss
  | Raise _ => []
  end.

(** The frames returned by a run of [recv]. *)
Definition frames_of {A B : Type} (r : result (list Server.VideoFrame * A * B))
  : list Server.VideoFrame :=
  match r with
  | Ok (frames, _, _) => frames
  | Raise _ => []
  end.

(** The inbound signaling objects that precede the first [BYE]. *)
Fixpoint before_bye (inbox : list Aiortc.signal) : list Aiortc.signal :=
  match inbox with
  | [] => []
  | Aiortc.BYE :: _ => []
  | obj :: rest => obj :: before_bye rest
  end.

Fixpoint descriptions_in (objs : list Aiortc.signal)
  : list Aiortc.RTCSessionDescription :=
  match objs with
  | [] => []
  | Aiortc.Description d :: rest => d :: descriptions_in rest
  | _ :: rest => descriptions_in rest
  end.

Fixpoint candidates_in (objs : list Aiortc.signal)
  : list Aiortc.RTCIceCandidate :=
  match objs with
  | [] => []
  | Aiortc.Candidate c :: rest => c :: candidates_in rest
  | _ :: rest => candidates_in rest
  end.

Definition is_offer (d : Aiortc.RTCSessionDescription) : bool :=
  (Aiortc.type d =? "offer")%string.

(** The value a call returns, without what it logged. *)
Definition returned {A B : Type} (r : result (A * B)) : result A :=
  p <- r ;; Ok (fst p).

(** The track [b] with the pacer attributes [_start] and [_timestamp]
    replaced. *)
Definition with_clock (b : Server.BouncingBallTrack)
  (start : option Q) (ts : option Z) : Server.BouncingBallTrack :=
  {| Server.screen_size := Server.screen_size b;
     Server.position_x := Server.position_x b;
     Server.position_y := Server.position_y b;
     Server.speed_x := Server.speed_x b;
     Server.speed_y := Server.speed_y b;
     Server.ball_radius := Server.ball_radius b;
     Server.ball_color := Server.ball_color b;
     Server._start := start;
     Server._timestamp := ts |}.

(** The frame [recv] returns on call number [n] from a new track. *)
Definition nth_frame (n : nat) : Server.VideoFrame :=
  {| Server.frame_image := fst (Server.get_next_image (Server.ticks n Server.init));
     Server.pts := Z.of_nat n * 3000;
     Server.time_base := Server.VIDEO_TIME_BASE |}.

(** The sleep arguments of a run of the pacer. *)
Definition sleeps_of {A B : Type} (r : result (A * list Q * B)) : list Q :=
  match r with
  | Ok (_, sleeps, _) => sleeps
  | Raise _ => []
  end.

(** The coordinates that a list of events puts on the queue. *)
Fixpoint puts_in (events : list Client.event) : list Py.pyval :=
  match events with
  | [] => []
  | Client.Put c :: rest => c :: puts_in rest
  | _ :: rest => puts_in rest
  end.

(** The data-channel message that carries a queued coordinate. *)
Definition as_message (coordinates : Py.pyval) : Aiortc.message :=
  Aiortc.Text (Py.str coordinates).

(** The coordinates [ImageParser.run] queues for a list of images. *)
Fixpoint detections (detect_center : Server.image -> option (Z * Z))
  (images : list Server.image) : list Py.pyval :=
  match images with
  | [] => []
  | image :: rest =>
      match detect_center image with
      | Some center =>
          coordinate (Client.c_int (fst center)) (Client.c_int (snd center))
          :: detections detect_center rest
      | None => detections detect_center rest
      end
  end.

(** An inbound object that [consume_signaling] reacts to. *)
Definition is_handled (obj : Aiortc.signal) : bool :=
  match obj with
  | Aiortc.Nothing => false
  | _ => true
  end.

Definition is_answer (d : Aiortc.RTCSessionDescription) : Prop :=
  Aiortc.type d = "answer".

(** * Properties *)

(** ** ObjectSimulator *)

Section Simulator.

Import Server.

Ltac crush_tick :=
  repeat match goal with
         | |- context [?a >=? ?b] => destruct (Z.geb_spec a b)
         | |- context [?a <=? ?b] => destruct (Z.leb_spec a b)
         end; cbn in *; lia.

Lemma tick_safe (b : BouncingBallTrack) : safe b -> safe (tick b).
Proof.
  destruct b as [[w h] x y vx vy r col st ts].
  unfold safe, inward, tick, get_next_image, update_delta_with_bound,
    set_position, set_speed_x, set_speed_y; cbn.
  intros [Hx Hy].
  crush_tick.
Qed.

Lemma ticks_safe (n : nat) (b : BouncingBallTrack) : safe b -> safe (ticks n b).
Proof.
  unfold ticks. revert b.
  induction n as [|n IH]; intros b Hb; cbn; [assumption|].
  apply IH, tick_safe, Hb.
Qed.

Lemma safe_contained (b : BouncingBallTrack) : safe b -> contained b.
Proof. unfold safe, inward, contained. intuition lia. Qed.

Lemma init_safe : safe init.
Proof. unfold safe, inward; cbn. lia. Qed.

Lemma tick_frame (b : BouncingBallTrack) :
  screen_size (tick b) = screen_size b /\
  ball_radius (tick b) = ball_radius b.
Proof.
  destruct b as [[w h] x y vx vy r col st ts].
  unfold tick, get_next_image, update_delta_with_bound,
    set_position, set_speed_x, set_speed_y; cbn.
  repeat match goal with
         | |- context [if ?c then _ else _] => destruct c
         end; cbn; split; reflexivity.
Qed.

Lemma ticks_frame (n : nat) (b : BouncingBallTrack) :
  screen_size (ticks n b) = screen_size b /\
  ball_radius (ticks n b) = ball_radius b.
Proof.
  unfold ticks. revert b.
  induction n as [|n IH]; intros b; [split; reflexivity|].
  change (iter (S n) tick b) with (iter n tick (tick b)).
  destruct (IH (tick b)) as [H1 H2], (tick_frame b) as [H3 H4].
  split; congruence.
Qed.

(** C1, as stated: a ball placed on the far limit of the x axis with the
    velocity that [__init__] gives it is inside the rectangle, and one
    tick later it is not. *)
Lemma C1_far_limit_start_escapes :
  contained (start_at 620 240) /\
  position_x (ticks 1 (start_at 620 240)) = 621 /\
  ~ contained (ticks 1 (start_at 620 240)).
Proof.
  unfold contained; cbn.
  split; [lia | split; [reflexivity | intros [[_ H] _]; lia]].
Qed.

(** C1, amended: from every start inside [[20, 620] x [20, 460]] whose unit
    velocity does not point outward at a limit, the position is inside
    [[radius, boundary - radius]] on both axes after every number of
    ticks. *)
Theorem C1_containment_after_every_tick (x y vx vy : Z) (n : nat) :
  20 <= x <= 620 -> 20 <= y <= 460 ->
  (vx = 1 \/ vx = -1) -> (vy = 1 \/ vy = -1) ->
  (x = 620 -> vx = -1) -> (x = 20 -> vx = 1) ->
  (y = 460 -> vy = -1) -> (y = 20 -> vy = 1) ->
  20 <= position_x (ticks n (launched x y vx vy)) <= 640 - 20 /\
  20 <= position_y (ticks n (launched x y vx vy)) <= 480 - 20 /\
  contained (ticks n (launched x y vx vy)).
Proof.
  intros Hx Hy Hvx Hvy Hxf Hxn Hyf Hyn.
  assert (Hs : safe (launched x y vx vy)).
  { unfold safe, inward; cbn. intuition lia. }
  pose proof (safe_contained _ (ticks_safe n _ Hs)) as Hc.
  destruct (ticks_frame n (launched x y vx vy)) as [Hsz Hr].
  unfold contained in Hc |- *. rewrite Hsz, Hr in Hc. cbn in Hc.
  repeat split; try rewrite Hsz; try rewrite Hr; cbn; lia.
Qed.

Lemma C1_containment_witness :
  20 <= position_x (ticks 1000 (launched 320 240 1 1)) <= 640 - 20 /\
  20 <= position_y (ticks 1000 (launched 320 240 1 1)) <= 480 - 20 /\
  contained (ticks 1000 (launched 320 240 1 1)).
Proof.
  apply (C1_containment_after_every_tick 320 240 1 1 1000); lia.
Defined.

Lemma before_far_wall_check :
  forallb (fun k => (position_x (ticks k init) + 20 <? 640)
                    && (position_x (ticks k init) =? 320 + Z.of_nat k)
                    && (speed_x (ticks k init) =? 1))
          (seq 0 300) = true.
Proof. vm_compute. reflexivity. Qed.

Lemma before_far_wall (k : nat) :
  (k < 300)%nat ->
  position_x (ticks k init) = 320 + Z.of_nat k /\
  position_x (ticks k init) + 20 < 640 /\
  speed_x (ticks k init) = 1.
Proof.
  intros Hk.
  pose proof before_far_wall_check as H.
  rewrite forallb_forall in H.
  specialize (H k). rewrite in_seq in H.
  assert (Hin : (0 <= k < 0 + 300)%nat) by lia.
  apply H in Hin.
  apply andb_prop in Hin as [Hin H3]. apply andb_prop in Hin as [H1 H2].
  apply Z.ltb_lt in H1. apply Z.eqb_eq in H2. apply Z.eqb_eq in H3.
  repeat split; assumption.
Qed.

(** C3, as stated: the constructed ball is not at position (240, 320); its
    x coordinate is 320 and its y coordinate is 240. *)
Lemma C3_start_is_not_240_320 :
  position_x init = 320 /\ position_y init = 240 /\
  (position_x init, position_y init) <> (240, 320).
Proof.
  split; [reflexivity | split; [reflexivity | discriminate]].
Qed.

(** C3, amended: the ball starts at the centre, x = 320 and y = 240, of the
    640 by 480 rectangle, with radius 20 and velocity (+1, +1).  Tick 300
    is the first after which [position_x + 20 >= 640]; up to then
    [speed_x] is +1, and from that tick into the next one it is -1. *)
Theorem C3_x_velocity_flips_at_far_wall :
  screen_size init = (640, 480) /\
  (position_x init, position_y init) = (320, 240) /\
  ball_radius init = 20 /\
  (speed_x init, speed_y init) = (1, 1) /\
  (forall k : nat, (k < 300)%nat ->
     position_x (ticks k init) + 20 < 640 /\ speed_x (ticks k init) = 1) /\
  position_x (ticks 300 init) + 20 >= 640 /\
  speed_x (ticks 300 init) = -1 /\
  speed_x (ticks 301 init) = -1 /\
  position_x (ticks 301 init) = 619.
Proof.
  repeat match goal with |- _ /\ _ => split end;
    try (vm_compute; reflexivity); try (vm_compute; discriminate).
  intros k Hk. destruct (before_far_wall k Hk) as (_ & H1 & H2).
  split; assumption.
Qed.

Lemma C3_x_velocity_flips_witness :
  position_x (ticks 299 init) + 20 < 640 /\ speed_x (ticks 299 init) = 1.
Proof.
  apply C3_x_velocity_flips_at_far_wall. lia.
Defined.

End Simulator.

(** ** FramePacer *)

Section Pacer.

Import Server.

Lemma frame_ticks_3000 : frame_ticks = 3000.
Proof. vm_compute. reflexivity. Qed.

Lemma frame_ticks_round :
  frame_ticks =
  round_of_float (VIDEO_PTIME * of_uint63 (Uint63.of_Z VIDEO_CLOCK_RATE))%float.
Proof. vm_compute. reflexivity. Qed.

Lemma stamps_from_S (ts : Z) (n : nat) :
  stamps_from ts (S n) = (ts + frame_ticks) :: stamps_from (ts + frame_ticks) n.
Proof.
  unfold stamps_from.
  cbn [seq map]. rewrite <- seq_shift, map_map.
  replace (ts + Z.of_nat 1 * frame_ticks) with (ts + frame_ticks) by lia.
  apply f_equal, map_ext. intros k. lia.
Qed.

Lemma next_timestamp_first (now : Q) (self : BouncingBallTrack) :
  _timestamp self = None ->
  next_timestamp now self =
  Ok (0, VIDEO_TIME_BASE, [], set_timestamp 0 (set_start now self)).
Proof. unfold next_timestamp. intros ->. reflexivity. Qed.

Lemma next_timestamp_running (now start : Q) (ts : Z) (self : BouncingBallTrack) :
  _start self = Some start -> _timestamp self = Some ts ->
  next_timestamp now self =
  Ok (ts + frame_ticks, VIDEO_TIME_BASE,
      [wait_for start (ts + frame_ticks) now],
      set_timestamp (ts + frame_ticks) self).
Proof.
  unfold next_timestamp. intros Hs ->. cbn. rewrite Hs. reflexivity.
Qed.

Lemma pace_running (clock : list Q) :
  forall (self : BouncingBallTrack) (start : Q) (ts : Z),
    _start self = Some start -> _timestamp self = Some ts ->
    exists self',
      pace clock self =
      Ok (stamps_from ts (List.length clock), waits_from start ts clock, self').
Proof.
  induction clock as [|now clock IH]; intros self start ts Hs Ht.
  - exists self. reflexivity.
  - cbn [pace List.length waits_from].
    rewrite (next_timestamp_running now start ts self Hs Ht). cbn [bind].
    destruct (IH (set_timestamp (ts + frame_ticks) self) start (ts + frame_ticks))
      as [self' E]; [exact Hs | reflexivity |].
    rewrite E. cbn [bind]. rewrite stamps_from_S.
    exists self'. reflexivity.
Qed.

Lemma pace_init (start : Q) (rest : list Q) :
  exists self',
    pace (start :: rest) init =
    Ok (0 :: stamps_from 0 (List.length rest), waits_from start 0 rest, self').
Proof.
  cbn [pace].
  rewrite (next_timestamp_first start init eq_refl). cbn [bind].
  destruct (pace_running rest (set_timestamp 0 (set_start start init)) start 0)
    as [self' E]; [reflexivity | reflexivity |].
  rewrite E. cbn [bind]. exists self'. reflexivity.
Qed.

Lemma multiples_from_zero (n : nat) :
  map (fun k => Z.of_nat k * 3000) (seq 0 (S n)) = 0 :: stamps_from 0 n.
Proof.
  unfold stamps_from. rewrite frame_ticks_3000.
  cbn [seq map]. rewrite <- seq_shift, map_map.
  replace (Z.of_nat 0 * 3000) with 0 by lia.
  apply f_equal, map_ext. intros k. lia.
Qed.

Lemma multiples_sorted (s n : nat) :
  StronglySorted Z.lt (map (fun k => Z.of_nat k * 3000) (seq s n)).
Proof.
  revert s. induction n as [|n IH]; intros s; cbn; constructor.
  - apply IH.
  - apply Forall_forall. intros z Hz.
    apply in_map_iff in Hz as (k & <- & Hk). apply in_seq in Hk. lia.
Qed.

Lemma multiples_nodup (s n : nat) :
  NoDup (map (fun k => Z.of_nat k * 3000) (seq s n)).
Proof.
  apply Injective_map_NoDup; [|apply seq_NoDup].
  intros a b H. lia.
Qed.

(** C2: the first call returns timestamp 0 without sleeping; over any
    number of successive calls, whatever the clock reads, call number [n]
    (the first being number 0) returns [n * 3000], where 3000 is
    [int(VIDEO_PTIME * VIDEO_CLOCK_RATE)] and also its rounding; the
    sequence is strictly increasing and has no repeated timestamp. *)
Theorem C2_pacer_timestamps (clock : list Q) :
  (forall now : Q, exists self',
      next_timestamp now init = Ok (0, VIDEO_TIME_BASE, [], self')) /\
  frame_ticks =
    round_of_float (VIDEO_PTIME * of_uint63 (Uint63.of_Z VIDEO_CLOCK_RATE))%float /\
  frame_ticks = 3000 /\
  (exists sleeps self',
      pace clock init =
      Ok (map (fun n => Z.of_nat n * 3000) (seq 0 (List.length clock)),
          sleeps, self')) /\
  StronglySorted Z.lt
    (map (fun n => Z.of_nat n * 3000) (seq 0 (List.length clock))) /\
  NoDup (map (fun n => Z.of_nat n * 3000) (seq 0 (List.length clock))).
Proof.
  split; [|split; [|split; [|split; [|split]]]].
  - intros now. eexists. apply next_timestamp_first. reflexivity.
  - apply frame_ticks_round.
  - apply frame_ticks_3000.
  - destruct clock as [|start rest].
    + exists [], init. reflexivity.
    + destruct (pace_init start rest) as [self' E].
      exists (waits_from start 0 rest), self'.
      cbn [List.length]. rewrite multiples_from_zero. exact E.
  - apply multiples_sorted.
  - apply multiples_nodup.
Qed.

Lemma waits_from_length (start : Q) (clock : list Q) :
  forall ts, List.length (waits_from start ts clock) = List.length clock.
Proof.
  induction clock as [|now clock IH]; intros ts; cbn; [reflexivity|].
  rewrite IH. reflexivity.
Qed.

Lemma waits_from_nth (start : Q) (clock : list Q) :
  forall (ts : Z) (k : nat) (now : Q),
    nth_error clock k = Some now ->
    nth_error (waits_from start ts clock) k =
    Some (wait_for start (ts + Z.of_nat (S k) * frame_ticks) now).
Proof.
  induction clock as [|c clock IH]; intros ts k now H.
  - destruct k; discriminate.
  - destruct k as [|k]; cbn [nth_error waits_from] in *.
    + injection H as ->.
      replace (ts + Z.of_nat 1 * frame_ticks) with (ts + frame_ticks) by lia.
      reflexivity.
    + rewrite (IH _ _ _ H).
      replace (ts + frame_ticks + Z.of_nat (S k) * frame_ticks)
        with (ts + Z.of_nat (S (S k)) * frame_ticks) by lia.
      reflexivity.
Qed.

Lemma wait_for_ideal (start now : Q) (k : nat) :
  wait_for start (0 + Z.of_nat k * frame_ticks) now = (ideal start k - now)%Q.
Proof. unfold wait_for, ideal. rewrite Z.add_0_l. reflexivity. Qed.

Lemma late_iff_negative (a now : Q) : (a - now < 0)%Q <-> (a < now)%Q.
Proof.
  rewrite (Qlt_minus_iff (a - now) 0), (Qlt_minus_iff a now).
  assert (E : (0 + - (a - now) == now + - a)%Q) by ring.
  rewrite E. reflexivity.
Qed.

Lemma asyncio_sleep_late (w : Q) : (w < 0)%Q -> asyncio_sleep w = 0%Q.
Proof.
  intros H. unfold asyncio_sleep.
  destruct (Qle_bool w 0) eqn:E; [reflexivity|].
  apply Qlt_le_weak, Qle_bool_iff in H. congruence.
Qed.

(** C7, as stated: the first call at clock 0 and the second at clock 100
    make the pacer hand a negative duration to [asyncio.sleep]. *)
Lemma C7_late_call_sleeps_negative :
  exists tss w self',
    pace [0%Q; 100%Q] init = Ok (tss, [w], self') /\ (w < 0)%Q.
Proof.
  do 3 eexists. split; [vm_compute; reflexivity|].
  unfold Qlt; cbn. lia.
Qed.

(** C7, amended: the pacer never raises, whatever the clock readings;
    every call after the first hands [asyncio.sleep] exactly one duration,
    the ideal instant of the new timestamp minus the clock reading, with
    no clamping: it is negative exactly when the ideal instant is already
    past, and [asyncio.sleep] then suspends for no time. *)
Theorem C7_sleep_argument_is_unclamped (start : Q) (rest : list Q) :
  exists tss sleeps self',
    pace (start :: rest) init = Ok (tss, sleeps, self') /\
    List.length sleeps = List.length rest /\
    forall (k : nat) (now : Q),
      nth_error rest k = Some now ->
      nth_error sleeps k = Some (ideal start (S k) - now)%Q /\
      ((ideal start (S k) - now < 0)%Q <-> (ideal start (S k) < now)%Q) /\
      ((ideal start (S k) < now)%Q ->
       asyncio_sleep (ideal start (S k) - now) = 0%Q).
Proof.
  destruct (pace_init start rest) as [self' E].
  exists (0 :: stamps_from 0 (List.length rest)), (waits_from start 0 rest), self'.
  split; [exact E|]. split; [apply waits_from_length|].
  intros k now Hk. split; [|split].
  - rewrite (waits_from_nth start rest 0 k now Hk), wait_for_ideal. reflexivity.
  - apply late_iff_negative.
  - intros H. apply asyncio_sleep_late, late_iff_negative, H.
Qed.

Lemma C7_sleep_argument_witness :
  exists tss sleeps self',
    pace [0%Q; 100%Q] init = Ok (tss, sleeps, self') /\
    nth_error sleeps 0 = Some (ideal 0 1 - 100)%Q /\
    asyncio_sleep (ideal 0 1 - 100) = 0%Q.
Proof.
  destruct (C7_sleep_argument_is_unclamped 0 [100%Q])
    as (tss & sleeps & self' & E & _ & H).
  destruct (H 0%nat 100%Q eq_refl) as (H1 & _ & H3).
  exists tss, sleeps, self'. split; [exact E|]. split; [exact H1|].
  apply H3. vm_compute. reflexivity.
Defined.

End Pacer.

(** ** ErrorEvaluator: [compute_error] *)

Section ErrorMetric.

Import Server.
Local Open Scope R_scope.

Lemma squared_distance_nonneg (b : BouncingBallTrack) (x y : Z) :
  (0 <= squared_distance b x y)%Z.
Proof. unfold squared_distance. nia. Qed.

Lemma compute_error_coordinate (b : BouncingBallTrack) (x y : Z) :
  compute_error b (coordinate x y) =
  (distance <- math_sqrt (squared_distance b x y) ;;
   Ok (distance, ComputedError (position_x b) (position_y b) distance)).
Proof. reflexivity. Qed.

Lemma math_sqrt_in_range (n : Z) :
  (0 <= n < FLOAT_OVERFLOW)%Z -> math_sqrt n = Ok (sqrt (IZR n)).
Proof.
  intros [H0 H1]. unfold math_sqrt.
  destruct (Z.ltb_spec n 0); [lia|].
  destruct (Z.ltb_spec n FLOAT_OVERFLOW); [reflexivity | lia].
Qed.

Lemma math_sqrt_overflow (n : Z) :
  (FLOAT_OVERFLOW <= n)%Z -> math_sqrt n = Raise OverflowError.
Proof.
  intros H. unfold math_sqrt.
  assert (0 < FLOAT_OVERFLOW)%Z by (vm_compute; reflexivity).
  destruct (Z.ltb_spec n 0); [lia|].
  destruct (Z.ltb_spec n FLOAT_OVERFLOW); [lia | reflexivity].
Qed.

Lemma compute_error_in_range (b : BouncingBallTrack) (x y : Z) :
  (squared_distance b x y < FLOAT_OVERFLOW)%Z ->
  compute_error b (coordinate x y) =
  Ok (sqrt (IZR (squared_distance b x y)),
      ComputedError (position_x b) (position_y b)
        (sqrt (IZR (squared_distance b x y)))).
Proof.
  intros H. rewrite compute_error_coordinate, math_sqrt_in_range; [reflexivity|].
  split; [apply squared_distance_nonneg | exact H].
Qed.

Lemma compute_error_overflow (b : BouncingBallTrack) (x y : Z) :
  (FLOAT_OVERFLOW <= squared_distance b x y)%Z ->
  compute_error b (coordinate x y) = Raise OverflowError.
Proof.
  intros H. rewrite compute_error_coordinate, math_sqrt_overflow; [reflexivity|].
  exact H.
Qed.

Lemma IZR_sum_squares (a b : Z) :
  IZR (a ^ 2 + b ^ 2) = (IZR a)² + (IZR b)².
Proof.
  rewrite plus_IZR. unfold Rsqr.
  replace (a ^ 2)%Z with (a * a)%Z by lia.
  replace (b ^ 2)%Z with (b * b)%Z by lia.
  rewrite !mult_IZR. reflexivity.
Qed.

(** C4, as stated: a report 156 digits long makes [compute_error] raise
    [OverflowError] instead of returning a distance. *)
Lemma C4_huge_report_raises :
  compute_error init (coordinate (10 ^ 155) 0) = Raise OverflowError.
Proof.
  apply compute_error_overflow. vm_compute. discriminate.
Qed.

(** C4, amended: for ground truth [(x0, y0)] (the position of the ball)
    and report [(x, y)] whose squared distance is below [2^1024 - 2^970],
    [compute_error] returns [sqrt ((x - x0)^2 + (y - y0)^2)], which is
    never negative, and exchanging report and ground truth gives the same
    value; for the report [(x0, y0)] it returns 0; for the report (0, 0),
    when [x0^2 + y0^2] is below that bound, it returns
    [sqrt (x0^2 + y0^2)].  From that bound on it raises [OverflowError]. *)
Theorem C4_compute_error_is_euclidean_distance
  (b : BouncingBallTrack) (x y : Z) :
  ((squared_distance b x y < FLOAT_OVERFLOW)%Z ->
   returned (compute_error b (coordinate x y)) =
     Ok (sqrt ((IZR x - IZR (position_x b))² + (IZR y - IZR (position_y b))²)) /\
   (exists d, returned (compute_error b (coordinate x y)) = Ok d /\ 0 <= d) /\
   returned (compute_error b (coordinate x y)) =
     returned (compute_error (set_position x y b)
                             (coordinate (position_x b) (position_y b)))) /\
  ((squared_distance b 0 0 < FLOAT_OVERFLOW)%Z ->
   returned (compute_error b (coordinate 0 0)) =
     Ok (sqrt ((IZR (position_x b))² + (IZR (position_y b))²))) /\
  returned (compute_error b (coordinate (position_x b) (position_y b))) = Ok 0 /\
  ((FLOAT_OVERFLOW <= squared_distance b x y)%Z ->
   compute_error b (coordinate x y) = Raise OverflowError).
Proof.
  split; [|split; [|split]].
  - intros H.
    assert (H' : (squared_distance (set_position x y b) (position_x b) (position_y b)
                  < FLOAT_OVERFLOW)%Z).
    { unfold squared_distance in *. cbn [position_x position_y set_position].
      replace ((position_x b - x) ^ 2 + (position_y b - y) ^ 2)%Z
        with ((x - position_x b) ^ 2 + (y - position_y b) ^ 2)%Z by nia.
      exact H. }
    rewrite (compute_error_in_range b x y H), (compute_error_in_range _ _ _ H').
    cbn [returned bind fst]. unfold squared_distance.
    cbn [position_x position_y set_position].
    rewrite !IZR_sum_squares, !minus_IZR.
    split; [reflexivity|]. split.
    + eexists. split; [reflexivity|]. apply sqrt_pos.
    + do 2 f_equal.
      rewrite (Rsqr_neg_minus (IZR x)), (Rsqr_neg_minus (IZR y)). reflexivity.
  - intros H. rewrite (compute_error_in_range b 0 0 H).
    cbn [returned bind fst]. unfold squared_distance.
    rewrite IZR_sum_squares, !minus_IZR.
    do 2 f_equal. cbn. rewrite !Rminus_0_l, <- !Rsqr_neg. reflexivity.
  - assert (H : (squared_distance b (position_x b) (position_y b) < FLOAT_OVERFLOW)%Z).
    { unfold squared_distance. rewrite !Z.sub_diag. vm_compute. reflexivity. }
    rewrite (compute_error_in_range _ _ _ H). cbn [returned bind fst].
    unfold squared_distance. rewrite !Z.sub_diag. cbn. rewrite sqrt_0. reflexivity.
  - apply compute_error_overflow.
Qed.

Lemma C4_compute_error_witness :
  returned (compute_error init (coordinate 0 0)) =
  Ok (sqrt ((IZR 0 - IZR (position_x init))² + (IZR 0 - IZR (position_y init))²)).
Proof.
  apply (C4_compute_error_is_euclidean_distance init 0 0).
  vm_compute. reflexivity.
Defined.

End ErrorMetric.

(** ** The coordinate message: [str] then [ast.literal_eval] *)

Section RoundTrip.

Import Py.

Lemma stops_number_not_digit (c : ascii) (r : string) :
  stops_number (String c r) = true -> digit_of c = None.
Proof.
  cbn. unfold is_digit.
  destruct (digit_of c); [discriminate | reflexivity].
Qed.

Lemma scan_digits_app (u : uint) (rest : string) :
  stops_number rest = true ->
  scan_digits (NilEmpty.string_of_uint u ++ rest) = (u, rest).
Proof.
  intros H.
  induction u as [|u IH|u IH|u IH|u IH|u IH|u IH|u IH|u IH|u IH|u IH];
    cbn [NilEmpty.string_of_uint append scan_digits digit_of];
    try (cbn; rewrite IH; reflexivity).
  destruct rest as [|c r]; [reflexivity|].
  cbn [scan_digits]. rewrite (stops_number_not_digit c r H). reflexivity.
Qed.

Lemma to_uint_no_leading_zero (p : positive) (u : uint) :
  Pos.to_uint p <> D0 u.
Proof.
  intros E.
  pose proof (Unsigned.to_of (Pos.to_uint p)) as H.
  rewrite Unsigned.of_to in H. cbn [N.to_uint] in H.
  rewrite E in H. unfold unorm in H. cbn [nzhead] in H.
  destruct (nzhead u) eqn:En; try discriminate H.
  - apply (Unsigned.to_uint_nonzero p). rewrite E. exact H.
  - symmetry in H. rewrite <- En in H. exact (nzhead_nonzero _ _ H).
Qed.

Lemma scan_int_positive (p : positive) (rest : string) :
  stops_number rest = true -> Zpos p < INT_LIMIT ->
  scan_int (NilEmpty.string_of_uint (Pos.to_uint p) ++ rest)
  = Parsed (Zpos p, rest).
Proof.
  intros Hr Hp. unfold scan_int.
  rewrite (scan_digits_app _ rest Hr).
  assert (Ev : Z.of_uint (Pos.to_uint p) = Zpos p).
  { unfold Z.of_uint. rewrite Unsigned.of_to. reflexivity. }
  apply Z.ltb_lt in Hp.
  destruct (Pos.to_uint p) as [|u| | | | | | | | | ] eqn:E;
    try (rewrite Ev, Hp; reflexivity).
  - destruct (Unsigned.to_uint_nonnil p E).
  - destruct (to_uint_no_leading_zero p u E).
Qed.

Lemma scan_int_zero (rest : string) :
  stops_number rest = true -> scan_int (String "0" rest) = Parsed (0, rest).
Proof.
  intros Hr. unfold scan_int.
  change (String "0" rest) with (NilEmpty.string_of_uint (D0 Nil) ++ rest).
  rewrite (scan_digits_app _ rest Hr). reflexivity.
Qed.

Lemma digits_head (u : uint) :
  u <> Nil ->
  exists c r d,
    NilEmpty.string_of_uint u = String c r /\ digit_of c = Some d.
Proof.
  destruct u; [contradiction | intros _ ..];
    cbn [NilEmpty.string_of_uint]; do 3 eexists; split; reflexivity.
Qed.

Lemma parse_value_digit (fuel : nat) (c : ascii) (s : string) (d : uint -> uint) :
  digit_of c = Some d ->
  parse_value (S fuel) (String c s) =
  ('(z, r) <~ scan_int (String c s) ;; Parsed (PInt z, r)).
Proof.
  destruct c as [[] [] [] [] [] [] [] []]; cbn; intros H;
    try discriminate H; reflexivity.
Qed.

Lemma parse_value_minus_digit (fuel : nat) (c : ascii) (s : string)
  (d : uint -> uint) :
  digit_of c = Some d ->
  parse_value (S fuel) (String "-" (String c s)) =
  ('(z, r) <~ scan_int (String c s) ;; Parsed (PInt (- z), r)).
Proof.
  destruct c as [[] [] [] [] [] [] [] []]; cbn; intros H;
    try discriminate H; reflexivity.
Qed.

Lemma nilzero_positive (p : positive) :
  NilZero.string_of_uint (Pos.to_uint p)
  = NilEmpty.string_of_uint (Pos.to_uint p).
Proof.
  unfold NilZero.string_of_uint.
  destruct (Pos.to_uint p) eqn:Eu; try reflexivity.
  destruct (Unsigned.to_uint_nonnil p Eu).
Qed.

Lemma parse_value_int (fuel : nat) (z : Z) (rest : string) :
  stops_number rest = true -> - INT_LIMIT < z < INT_LIMIT ->
  parse_value (S fuel) (repr_int z ++ rest) = Parsed (PInt z, rest).
Proof.
  intros Hr Hz. unfold repr_int.
  destruct z as [|p|p]; cbn [Z.to_int NilZero.string_of_int].
  - change (NilZero.string_of_uint zero ++ rest) with (String "0" rest).
    rewrite (parse_value_digit fuel "0" rest D0 eq_refl), (scan_int_zero rest Hr).
    reflexivity.
  - rewrite nilzero_positive.
    destruct (digits_head (Pos.to_uint p) (Unsigned.to_uint_nonnil p))
      as (c & r & d & Es & Ed).
    assert (Hp : Zpos p < INT_LIMIT) by lia.
    pose proof (scan_int_positive p rest Hr Hp) as Hs.
    rewrite Es in Hs |- *. cbn [append] in Hs |- *.
    rewrite (parse_value_digit fuel c _ d Ed), Hs. reflexivity.
  - rewrite nilzero_positive.
    destruct (digits_head (Pos.to_uint p) (Unsigned.to_uint_nonnil p))
      as (c & r & d & Es & Ed).
    assert (Hp : Zpos p < INT_LIMIT) by lia.
    pose proof (scan_int_positive p rest Hr Hp) as Hs.
    rewrite Es in Hs |- *. cbn [append] in Hs |- *.
    rewrite (parse_value_minus_digit fuel c _ d Ed), Hs. reflexivity.
Qed.

Lemma lexable_digits (depth : nat) (u : uint) (rest : string) :
  lexable depth AfterDigit (NilEmpty.string_of_uint u ++ rest)
  = lexable depth AfterDigit rest.
Proof.
  induction u as [|u IH|u IH|u IH|u IH|u IH|u IH|u IH|u IH|u IH|u IH];
    [reflexivity | exact IH ..].
Qed.

Lemma lexable_number (depth : nat) (u : uint) (rest : string) :
  u <> Nil ->
  lexable depth AfterOther (NilEmpty.string_of_uint u ++ rest)
  = lexable depth AfterDigit rest.
Proof.
  destruct u; [contradiction | intros _ ..]; apply (lexable_digits depth).
Qed.

Lemma lexable_repr_int (depth : nat) (z : Z) (rest : string) :
  lexable depth AfterOther (repr_int z ++ rest) = lexable depth AfterDigit rest.
Proof.
  unfold repr_int.
  destruct z as [|p|p]; cbn [Z.to_int NilZero.string_of_int].
  - reflexivity.
  - rewrite nilzero_positive.
    apply lexable_number, Unsigned.to_uint_nonnil.
  - rewrite nilzero_positive.
    change (lexable depth AfterOther
              (String "-" (NilEmpty.string_of_uint (Pos.to_uint p)) ++ rest))
      with (lexable depth AfterOther
              (NilEmpty.string_of_uint (Pos.to_uint p) ++ rest)).
    apply lexable_number, Unsigned.to_uint_nonnil.
Qed.

Lemma append_assoc (a b c : string) : ((a ++ b) ++ c = a ++ (b ++ c))%string.
Proof.
  induction a as [|ch a IH]; cbn; [reflexivity | rewrite IH; reflexivity].
Qed.

Lemma str_coordinate (x y : Z) :
  str (coordinate x y) =
  ("{'x': " ++ repr_int x ++ ", 'y': " ++ repr_int y ++ "}")%string.
Proof.
  cbn [str coordinate repr map join repr_str append].
  rewrite !append_assoc. reflexivity.
Qed.

Lemma lexable_coordinate (x y : Z) :
  lexable 0 AfterOther
    ("{'x': " ++ repr_int x ++ ", 'y': " ++ repr_int y ++ "}")%string = true.
Proof.
  change (lexable 0 AfterOther
            ("{'x': " ++ repr_int x ++ ", 'y': " ++ repr_int y ++ "}")%string)
    with (lexable 1 AfterOther
            (repr_int x ++ ", 'y': " ++ repr_int y ++ "}")%string).
  rewrite lexable_repr_int.
  change (lexable 1 AfterDigit (", 'y': " ++ repr_int y ++ "}")%string)
    with (lexable 1 AfterOther (repr_int y ++ "}")%string).
  rewrite lexable_repr_int. reflexivity.
Qed.

Lemma parse_dict_coordinate (fuel : nat) (x y : Z) :
  - INT_LIMIT < x < INT_LIMIT -> - INT_LIMIT < y < INT_LIMIT ->
  parse_dict (S (S (S fuel))) []
    ("'x': " ++ repr_int x ++ ", 'y': " ++ repr_int y ++ "}")%string =
  Parsed (coordinate x y, EmptyString).
Proof.
  intros Hx Hy.
  change (parse_dict (S (S (S fuel))) []
            ("'x': " ++ repr_int x ++ ", 'y': " ++ repr_int y ++ "}")%string)
    with ('(v, r2) <~ parse_value (S (S fuel))
                        (repr_int x ++ ", 'y': " ++ repr_int y ++ "}")%string ;;
          match skip_ws r2 with
          | String "," r3 => parse_dict (S (S fuel)) (dict_set (PStr "x") v []) r3
          | String "}" r3 => Parsed (PDict (dict_set (PStr "x") v []), r3)
          | other => unexpected other
          end).
  rewrite parse_value_int by (reflexivity || exact Hx).
  change (parse_dict (S (S fuel)) [(PStr "x", PInt x)]
            ("'y': " ++ repr_int y ++ "}")%string
          = Parsed (coordinate x y, EmptyString)).
  change (parse_dict (S (S fuel)) [(PStr "x", PInt x)]
            ("'y': " ++ repr_int y ++ "}")%string)
    with ('(v, r2) <~ parse_value (S fuel) (repr_int y ++ "}")%string ;;
          match skip_ws r2 with
          | String "," r3 =>
              parse_dict (S fuel) (dict_set (PStr "y") v [(PStr "x", PInt x)]) r3
          | String "}" r3 =>
              Parsed (PDict (dict_set (PStr "y") v [(PStr "x", PInt x)]), r3)
          | other => unexpected other
          end).
  rewrite parse_value_int by (reflexivity || exact Hy).
  reflexivity.
Qed.

Lemma parse_value_coordinate (fuel : nat) (x y : Z) :
  - INT_LIMIT < x < INT_LIMIT -> - INT_LIMIT < y < INT_LIMIT ->
  parse_value (S (S (S (S fuel))))
    ("{'x': " ++ repr_int x ++ ", 'y': " ++ repr_int y ++ "}")%string =
  Parsed (coordinate x y, EmptyString).
Proof.
  intros Hx Hy.
  change (parse_value (S (S (S (S fuel))))
            ("{'x': " ++ repr_int x ++ ", 'y': " ++ repr_int y ++ "}")%string)
    with (parse_dict (S (S (S fuel))) []
            ("'x': " ++ repr_int x ++ ", 'y': " ++ repr_int y ++ "}")%string).
  apply parse_dict_coordinate; assumption.
Qed.

Lemma literal_eval_within_limit (x y : Z) :
  - INT_LIMIT < x < INT_LIMIT -> - INT_LIMIT < y < INT_LIMIT ->
  literal_eval (str (coordinate x y)) = Parsed (coordinate x y).
Proof.
  intros Hx Hy. rewrite str_coordinate. unfold literal_eval.
  rewrite lexable_coordinate.
  change (starts_with_ws
            ("{'x': " ++ repr_int x ++ ", 'y': " ++ repr_int y ++ "}")%string)
    with false.
  cbn [orb negb].
  assert (E : exists n,
             (2 * String.length
                    ("{'x': " ++ repr_int x ++ ", 'y': " ++ repr_int y ++ "}")%string
              = S (S n))%nat).
  { eexists. cbn [append String.length Nat.mul Nat.add]. reflexivity. }
  destruct E as [n ->].
  rewrite parse_value_coordinate by assumption. reflexivity.
Qed.

Lemma c_int_within_limit (z : Z) :
  - 2 ^ 31 <= z < 2 ^ 31 -> - INT_LIMIT < z < INT_LIMIT.
Proof.
  assert (2 ^ 31 < INT_LIMIT) by (vm_compute; reflexivity). lia.
Qed.

Lemma literal_eval_coordinate (x y : Z) :
  - 2 ^ 31 <= x < 2 ^ 31 -> - 2 ^ 31 <= y < 2 ^ 31 ->
  literal_eval (str (coordinate x y)) = Parsed (coordinate x y).
Proof.
  intros Hx Hy. apply literal_eval_within_limit; apply c_int_within_limit; assumption.
Qed.

Lemma server_ball_in_range (n : nat) (x y : Z) :
  - 2 ^ 31 <= x < 2 ^ 31 -> - 2 ^ 31 <= y < 2 ^ 31 ->
  squared_distance (Server.ticks n Server.init) x y < Server.FLOAT_OVERFLOW.
Proof.
  intros Hx Hy.
  pose proof (safe_contained _ (ticks_safe n Server.init init_safe)) as [Cx Cy].
  destruct (ticks_frame n Server.init) as [Es Er].
  rewrite Es, Er in Cx, Cy. cbn in Cx, Cy.
  assert (L : 2 ^ 66 < Server.FLOAT_OVERFLOW) by (vm_compute; reflexivity).
  unfold squared_distance.
  assert (Bx : (x - Server.position_x (Server.ticks n Server.init)) ^ 2 <= 2 ^ 65).
  { change (2 ^ 65) with ((2 ^ 32) ^ 2 * 2). nia. }
  assert (By : (y - Server.position_y (Server.ticks n Server.init)) ^ 2 <= 2 ^ 65).
  { change (2 ^ 65) with ((2 ^ 32) ^ 2 * 2). nia. }
  change (2 ^ 66) with (2 ^ 65 + 2 ^ 65) in L. lia.
Qed.

(** C8: for all integers [x] and [y] in the range of a C [int] (every
    coordinate the client queues has passed through such a cell), the
    text the client sends for the mapping [{"x": x, "y": y}] is evaluated
    by the server's handler back to a mapping whose ["x"] and ["y"]
    entries are exactly [x] and [y].  The handler then logs the mapping
    and the distance to its ball and returns: for the server's ball after
    any number of frames, and for any ball whose squared distance to the
    report is within the range of [math.sqrt]. *)
Theorem C8_coordinate_round_trip (x y : Z) :
  - 2 ^ 31 <= x < 2 ^ 31 -> - 2 ^ 31 <= y < 2 ^ 31 ->
  literal_eval (str (coordinate x y)) = Parsed (coordinate x y) /\
  getitem (coordinate x y) (PStr "x") = Ok (PInt x) /\
  getitem (coordinate x y) (PStr "y") = Ok (PInt y) /\
  (forall images rest label sent,
      snd (Client.send_coordinates_iteration
             {| Client.image_queue := images;
                Client.coordinate_queue := coordinate x y :: rest;
                Client.channel :=
                  Some {| Aiortc.label := label;
                          Aiortc.readyState := "open";
                          Aiortc.sent := sent |} |})
      = [Aiortc.Text (str (coordinate x y))]) /\
  (forall label b,
      squared_distance b x y < Server.FLOAT_OVERFLOW ->
      Server.on_message label b (Aiortc.Text (str (coordinate x y))) =
      Some ([Server.Received label (coordinate x y);
             Server.ComputedError (Server.position_x b) (Server.position_y b)
               (sqrt (IZR (squared_distance b x y)))],
            Ok tt)) /\
  (forall label n,
      Server.on_message label (Server.ticks n Server.init)
        (Aiortc.Text (str (coordinate x y))) =
      Some ([Server.Received label (coordinate x y);
             Server.ComputedError
               (Server.position_x (Server.ticks n Server.init))
               (Server.position_y (Server.ticks n Server.init))
               (sqrt (IZR (squared_distance (Server.ticks n Server.init) x y)))],
            Ok tt)).
Proof.
  intros Hx Hy.
  assert (H : forall label b,
             squared_distance b x y < Server.FLOAT_OVERFLOW ->
             Server.on_message label b (Aiortc.Text (str (coordinate x y))) =
             Some ([Server.Received label (coordinate x y);
                    Server.ComputedError (Server.position_x b)
                      (Server.position_y b)
                      (sqrt (IZR (squared_distance b x y)))],
                   Ok tt)).
  { intros label b Hb. unfold Server.on_message.
    rewrite (literal_eval_coordinate x y Hx Hy), (compute_error_in_range b x y Hb).
    reflexivity. }
  split; [apply literal_eval_coordinate; assumption|].
  split; [reflexivity|]. split; [reflexivity|]. split; [|split].
  - intros images rest label sent. reflexivity.
  - exact H.
  - intros label n. apply H, server_ball_in_range; assumption.
Qed.

Lemma C8_coordinate_round_trip_witness :
  literal_eval (str (coordinate 321 (-241))) = Parsed (coordinate 321 (-241)).
Proof.
  apply (C8_coordinate_round_trip 321 (-241)); lia.
Defined.

End RoundTrip.

(** ** ErrorEvaluator: the message handler *)

Section Handler.

Import Py Aiortc Server.






End Handler.

(** ** CoordinateReporter *)

Section Reporter.

Import Py Aiortc Client.

Lemma iteration_sends_at_most_one (self : Client) :
  (List.length (snd (send_coordinates_iteration self)) <= 1)%nat.
Proof.
  unfold send_coordinates_iteration.
  destruct (channel self) as [ch|]; [|cbn; lia].
  destruct (readyState ch =? "open")%string; [|cbn; lia].
  destruct (coordinate_queue self); cbn; lia.
Qed.

(** C9: an iteration of the reporting loop hands [channel.send] at most
    one message; it hands one only if the channel is set, its
    [readyState] is ["open"] and the coordinate queue is not empty, and
    then it removes exactly the oldest coordinate and sends its text as
    that one message; over any run of the loop no iteration sends more
    than one. *)
Theorem C9_one_guarded_send_per_iteration (self : Client) :
  (List.length (snd (send_coordinates_iteration self)) <= 1)%nat /\
  (snd (send_coordinates_iteration self) <> [] ->
   exists ch coordinates rest,
     channel self = Some ch /\ readyState ch = "open" /\
     coordinate_queue self = coordinates :: rest) /\
  (forall ch coordinates rest,
     channel self = Some ch -> readyState ch = "open" ->
     coordinate_queue self = coordinates :: rest ->
     snd (send_coordinates_iteration self) = [Text (str coordinates)] /\
     coordinate_queue (fst (send_coordinates_iteration self)) = rest /\
     channel (fst (send_coordinates_iteration self)) =
       Some (send (Text (str coordinates)) ch) /\
     sent (send (Text (str coordinates)) ch) =
       (sent ch ++ [Text (str coordinates)])%list) /\
  (forall schedule,
     Forall (fun out => (List.length out <= 1)%nat)
            (snd (send_coordinates_to_server schedule self))).
Proof.
  split; [apply iteration_sends_at_most_one|]. split; [|split].
  - unfold send_coordinates_iteration.
    destruct (channel self) as [ch|]; [|intros H; destruct (H eq_refl)].
    destruct (readyState ch =? "open")%string eqn:E;
      [|intros H; destruct (H eq_refl)].
    destruct (coordinate_queue self) as [|c rest];
      [intros H; destruct (H eq_refl)|].
    intros _. exists ch, c, rest. apply String.eqb_eq in E.
    repeat split; assumption.
  - intros ch c rest Hch Hopen Hq. unfold send_coordinates_iteration.
    rewrite Hch, Hq. apply String.eqb_eq in Hopen. rewrite Hopen.
    repeat split.
  - intros schedule. revert self.
    induction schedule as [|events schedule IH]; intros self; cbn.
    + constructor.
    + pose proof (iteration_sends_at_most_one self) as H1.
      destruct (send_coordinates_iteration self) as [self1 out].
      specialize (IH (fold_left apply_event events self1)).
      destruct (send_coordinates_to_server schedule
                  (fold_left apply_event events self1)) as [self2 outs].
      constructor; assumption.
Qed.

Lemma C9_one_guarded_send_witness :
  snd (send_coordinates_iteration
         {| image_queue := [];
            coordinate_queue := [coordinate 10 20; coordinate 11 21];
            channel := Some {| label := "coordinates"; readyState := "open";
                               sent := [] |} |})
  = [Text (str (coordinate 10 20))].
Proof.
  eapply (C9_one_guarded_send_per_iteration
            {| image_queue := [];
               coordinate_queue := [coordinate 10 20; coordinate 11 21];
               channel := Some {| label := "coordinates"; readyState := "open";
                                  sent := [] |} |});
    reflexivity.
Defined.

(** C10: an iteration in which the channel is unset, or its [readyState]
    is not ["open"], or the coordinate queue is empty, sends nothing and
    leaves the client, and so the queue contents, unchanged. *)
Theorem C10_blocked_iteration_changes_nothing (self : Client) :
  channel self = None \/
  (exists ch, channel self = Some ch /\ readyState ch <> "open") \/
  coordinate_queue self = [] ->
  send_coordinates_iteration self = (self, []) /\
  coordinate_queue (fst (send_coordinates_iteration self)) = coordinate_queue self /\
  snd (send_coordinates_iteration self) = [].
Proof.
  intros H.
  assert (E : send_coordinates_iteration self = (self, [])).
  { unfold send_coordinates_iteration.
    destruct H as [H | [(ch & H & Hs) | H]].
    - rewrite H. reflexivity.
    - rewrite H. apply String.eqb_neq in Hs. rewrite Hs. reflexivity.
    - rewrite H. destruct (channel self) as [ch|]; [|reflexivity].
      destruct (readyState ch =? "open")%string; reflexivity. }
  rewrite E. repeat split.
Qed.

Lemma C10_blocked_iteration_witness :
  send_coordinates_iteration
    {| image_queue := []; coordinate_queue := [coordinate 10 20];
       channel := Some {| label := "coordinates"; readyState := "connecting";
                          sent := [] |} |}
  = ({| image_queue := []; coordinate_queue := [coordinate 10 20];
        channel := Some {| label := "coordinates"; readyState := "connecting";
                           sent := [] |} |}, []).
Proof.
  apply (C10_blocked_iteration_changes_nothing
           {| image_queue := []; coordinate_queue := [coordinate 10 20];
              channel := Some {| label := "coordinates";
                                 readyState := "connecting"; sent := [] |} |}).
  right. left. eexists. split; [reflexivity | discriminate].
Defined.

End Reporter.

(** ** SessionNegotiator *)

Section Negotiator.

Import Aiortc.

Lemma consume_signaling_same (ms : MediaSession) (inbox : list signal) :
  forall pc outbox,
    Server.consume_signaling ms pc inbox outbox =
    Client.consume_signaling ms pc inbox outbox.
Proof.
  induction inbox as [|obj inbox IH]; intros pc outbox; [reflexivity|].
  destruct obj as [d|c| |]; cbn [Server.consume_signaling Client.consume_signaling].
  - destruct (invoke ms (SetRemoteDescription d) pc) as [pc1|e]; cbn [bind];
      [|reflexivity].
    destruct (type d =? "offer")%string; [|apply IH].
    destruct (createAnswer ms pc1) as [[ans pc2]|e]; cbn [bind]; [|reflexivity].
    destruct (invoke ms (SetLocalDescription ans) pc2) as [pc3|e]; cbn [bind];
      [apply IH | reflexivity].
  - destruct (invoke ms (AddIceCandidate c) pc) as [pc1|e]; cbn [bind];
      [apply IH | reflexivity].
  - reflexivity.
  - apply IH.
Qed.

Lemma invoke_ok (ms : MediaSession) (c : pc_call) (pc pc' : RTCPeerConnection) :
  invoke ms c pc = Ok pc' -> pc' = (pc ++ [c])%list.
Proof.
  unfold invoke. destruct (raises_on ms pc c); [discriminate|].
  intros H. injection H as <-. reflexivity.
Qed.

Lemma createAnswer_ok (ms : MediaSession) (pc pc' : RTCPeerConnection)
  (ans : RTCSessionDescription) :
  createAnswer ms pc = Ok (ans, pc') ->
  pc' = (pc ++ [CreateAnswer])%list /\ type ans = "answer".
Proof.
  unfold createAnswer.
  destruct (invoke ms CreateAnswer pc) as [pc1|e] eqn:E; [|discriminate].
  cbn [bind]. intros H. injection H as <- <-.
  split; [apply (invoke_ok ms _ _ _ E) | reflexivity].
Qed.

Lemma remote_applied_app (a b : RTCPeerConnection) :
  remote_applied (a ++ b)%list = (remote_applied a ++ remote_applied b)%list.
Proof.
  induction a as [|c a IH]; [reflexivity|].
  destruct c; cbn; rewrite IH; reflexivity.
Qed.

Lemma local_applied_app (a b : RTCPeerConnection) :
  local_applied (a ++ b)%list = (local_applied a ++ local_applied b)%list.
Proof.
  induction a as [|c a IH]; [reflexivity|].
  destruct c; cbn; rewrite IH; reflexivity.
Qed.

Lemma candidates_applied_app (a b : RTCPeerConnection) :
  candidates_applied (a ++ b)%list
  = (candidates_applied a ++ candidates_applied b)%list.
Proof.
  induction a as [|c a IH]; [reflexivity|].
  destruct c; cbn; rewrite IH; reflexivity.
Qed.

Ltac tidy_applied H1 H2 H3 :=
  rewrite ?remote_applied_app in H1;
  rewrite ?local_applied_app, ?List.length_app in H2;
  rewrite ?candidates_applied_app in H3;
  cbn in H1, H2, H3;
  rewrite ?List.app_nil_r in H1, H3;
  rewrite <- ?List.app_assoc in H1, H3;
  cbn in H1, H3 |- *;
  split; [exact H1 | split; [lia | exact H3]].

Lemma consume_signaling_applies (ms : MediaSession) (inbox : list signal) :
  forall pc0 outbox0 pc outbox exit,
    Client.consume_signaling ms pc0 inbox outbox0 = Ok (pc, outbox, exit) ->
    remote_applied pc
      = (remote_applied pc0 ++ descriptions_in (before_bye inbox))%list /\
    List.length (local_applied pc)
      = (List.length (local_applied pc0)
         + List.length (filter is_offer (descriptions_in (before_bye inbox))))%nat /\
    candidates_applied pc
      = (candidates_applied pc0 ++ candidates_in (before_bye inbox))%list.
Proof.
  induction inbox as [|obj inbox IH]; intros pc0 outbox0 pc outbox exit H.
  - cbn in H. injection H as <- <- <-. cbn.
    rewrite !List.app_nil_r, Nat.add_0_r. repeat split.
  - destruct obj as [d|c| |]; cbn [Client.consume_signaling] in H;
      cbn [before_bye descriptions_in candidates_in filter].
    + destruct (invoke ms (SetRemoteDescription d) pc0) as [pc1|e] eqn:E1;
        cbn [bind] in H; [|discriminate].
      apply invoke_ok in E1. unfold is_offer at 1.
      destruct (type d =? "offer")%string.
      * destruct (createAnswer ms pc1) as [[ans pc2]|e] eqn:E2;
          cbn [bind] in H; [|discriminate].
        apply createAnswer_ok in E2 as [E2 _].
        destruct (invoke ms (SetLocalDescription ans) pc2) as [pc3|e] eqn:E3;
          cbn [bind] in H; [|discriminate].
        apply invoke_ok in E3.
        apply IH in H as (H1 & H2 & H3). subst pc3 pc2 pc1.
        tidy_applied H1 H2 H3.
      * apply IH in H as (H1 & H2 & H3). subst pc1.
        tidy_applied H1 H2 H3.
    + destruct (invoke ms (AddIceCandidate c) pc0) as [pc1|e] eqn:E1;
        cbn [bind] in H; [|discriminate].
      apply invoke_ok in E1.
      apply IH in H as (H1 & H2 & H3). subst pc1.
      tidy_applied H1 H2 H3.
    + injection H as <- <- <-. cbn.
      rewrite !List.app_nil_r, Nat.add_0_r. repeat split.
    + apply IH in H. exact H.
Qed.

Lemma consume_signaling_permissive (inbox : list signal) :
  forall pc outbox,
    exists r, Client.consume_signaling permissive pc inbox outbox = Ok r.
Proof.
  induction inbox as [|obj inbox IH]; intros pc outbox.
  - eexists. reflexivity.
  - destruct obj as [d|c| |]; cbn [Client.consume_signaling].
    + unfold invoke, createAnswer, invoke. cbn [permissive raises_on bind].
      destruct (type d =? "offer")%string; apply IH.
    + unfold invoke. cbn [permissive raises_on bind]. apply IH.
    + eexists. reflexivity.
    + apply IH.
Qed.

(** C5, as stated: an answerer that receives two offers applies both as
    remote descriptions and answers both, so two remote and two local
    descriptions are applied in one session, and no error is raised, with
    a peer connection that enforces the offer/answer signaling states. *)
Lemma C5_second_offer_is_applied :
  exists pc outbox,
    Client.run_answer state_checking []
      [Description {| sdp := "first"; type := "offer" |};
       Description {| sdp := "second"; type := "offer" |};
       BYE]
    = Ok (pc, outbox, Closed) /\
    remote_applied pc = [{| sdp := "first"; type := "offer" |};
                         {| sdp := "second"; type := "offer" |}] /\
    List.length (local_applied pc) = 2%nat /\
    ~ (List.length (remote_applied pc) <= 1)%nat.
Proof.
  do 2 eexists. split; [vm_compute; reflexivity|].
  split; [reflexivity|]. split; [reflexivity|].
  cbn. lia.
Qed.

Lemma localDescription_last (pc : RTCPeerConnection) (d : RTCSessionDescription) :
  localDescription (pc ++ [SetLocalDescription d])%list = Some d.
Proof.
  induction pc as [|c pc IH]; [reflexivity|].
  cbn [List.app localDescription]. rewrite IH. reflexivity.
Qed.

Lemma consume_signaling_sends (ms : MediaSession) (inbox : list signal) :
  forall pc0 outbox0 pc outbox exit,
    Client.consume_signaling ms pc0 inbox outbox0 = Ok (pc, outbox, exit) ->
    exists tail answers,
      pc = (pc0 ++ tail)%list /\
      outbox = (outbox0 ++ map Some answers)%list /\
      local_applied pc = (local_applied pc0 ++ answers)%list /\
      Forall is_answer answers /\
      (exit = Closed <-> In BYE inbox).
Proof.
  induction inbox as [|obj inbox IH]; intros pc0 outbox0 pc outbox exit H.
  - cbn in H. injection H as <- <- <-. exists [], [].
    rewrite !List.app_nil_r. repeat split; try constructor.
    + discriminate.
    + intros [].
  - destruct obj as [d|c| |]; cbn [Client.consume_signaling] in H.
    + destruct (invoke ms (SetRemoteDescription d) pc0) as [pc1|e] eqn:E1;
        cbn [bind] in H; [|discriminate].
      apply invoke_ok in E1.
      destruct (type d =? "offer")%string.
      * destruct (createAnswer ms pc1) as [[ans pc2]|e] eqn:E2;
          cbn [bind] in H; [|discriminate].
        apply createAnswer_ok in E2 as [E2 Ht].
        destruct (invoke ms (SetLocalDescription ans) pc2) as [pc3|e] eqn:E3;
          cbn [bind] in H; [|discriminate].
        apply invoke_ok in E3.
        apply IH in H as (tail & answers & Hp & Ho & Hl & Hf & Hx).
        subst pc3 pc2 pc1. rewrite localDescription_last in Ho.
        exists ([SetRemoteDescription d; CreateAnswer; SetLocalDescription ans]
                  ++ tail)%list, (ans :: answers).
        rewrite !local_applied_app in Hl. cbn in Hl.
        rewrite !List.app_nil_r in Hl.
        repeat rewrite <- List.app_assoc in Hp.
        repeat rewrite <- List.app_assoc in Ho.
        repeat rewrite <- List.app_assoc in Hl.
        cbn in Hp, Ho, Hl |- *.
        repeat split; try assumption.
        -- constructor; assumption.
        -- intros He. right. apply Hx, He.
        -- intros [Hb|Hb]; [discriminate | apply Hx, Hb].
      * apply IH in H as (tail & answers & Hp & Ho & Hl & Hf & Hx).
        subst pc1. exists ([SetRemoteDescription d] ++ tail)%list, answers.
        rewrite !local_applied_app in Hl. cbn in Hl.
        rewrite !List.app_nil_r in Hl.
        repeat rewrite <- List.app_assoc in Hp. cbn in Hp |- *.
        repeat split; try assumption.
        -- intros He. right. apply Hx, He.
        -- intros [Hb|Hb]; [discriminate | apply Hx, Hb].
    + destruct (invoke ms (AddIceCandidate c) pc0) as [pc1|e] eqn:E1;
        cbn [bind] in H; [|discriminate].
      apply invoke_ok in E1.
      apply IH in H as (tail & answers & Hp & Ho & Hl & Hf & Hx).
      subst pc1. exists ([AddIceCandidate c] ++ tail)%list, answers.
      rewrite !local_applied_app in Hl. cbn in Hl.
      rewrite !List.app_nil_r in Hl.
      repeat rewrite <- List.app_assoc in Hp. cbn in Hp |- *.
      repeat split; try assumption.
      * intros He. right. apply Hx, He.
      * intros [Hb|Hb]; [discriminate | apply Hx, Hb].
    + injection H as <- <- <-. exists [], [].
      rewrite !List.app_nil_r. repeat split; try constructor.
      reflexivity.
    + apply IH in H as (tail & answers & Hp & Ho & Hl & Hf & Hx).
      exists tail, answers. repeat split; try assumption.
      * intros He. right. apply Hx, He.
      * intros [Hb|Hb]; [discriminate | apply Hx, Hb].
Qed.

Lemma consume_signaling_raises (ms : MediaSession) (inbox : list signal) :
  forall pc0 outbox0 e,
    Client.consume_signaling ms pc0 inbox outbox0 = Raise e ->
    exists tail c, raises_on ms (pc0 ++ tail)%list c = Some e.
Proof.
  assert (Hi : forall c pc e, invoke ms c pc = Raise e -> raises_on ms pc c = Some e).
  { intros c pc e. unfold invoke.
    destruct (raises_on ms pc c); [|discriminate].
    intros H. injection H as ->. reflexivity. }
  assert (Hn : forall pc0 pc1 tail1 (P : RTCPeerConnection -> Prop),
             pc1 = (pc0 ++ tail1)%list ->
             (exists tail, P (pc1 ++ tail)%list) ->
             exists tail, P (pc0 ++ tail)%list).
  { intros pc0 pc1 tail1 P -> [tail H]. exists (tail1 ++ tail)%list.
    rewrite List.app_assoc. exact H. }
  induction inbox as [|obj inbox IH]; intros pc0 outbox0 e H; [discriminate|].
  destruct obj as [d|c| |]; cbn [Client.consume_signaling] in H.
  - destruct (invoke ms (SetRemoteDescription d) pc0) as [pc1|e1] eqn:E1;
      cbn [bind] in H.
    2:{ injection H as ->. exists [], (SetRemoteDescription d).
        rewrite List.app_nil_r. apply Hi, E1. }
    apply invoke_ok in E1.
    destruct (type d =? "offer")%string.
    + destruct (createAnswer ms pc1) as [[ans pc2]|e2] eqn:E2; cbn [bind] in H.
      2:{ injection H as ->. unfold createAnswer in E2.
          destruct (invoke ms CreateAnswer pc1) as [pc2|e2] eqn:E2';
            cbn [bind] in E2; [discriminate|].
          injection E2 as ->.
          exists [SetRemoteDescription d], CreateAnswer.
          rewrite <- E1. apply Hi, E2'. }
      apply createAnswer_ok in E2 as [E2 _].
      destruct (invoke ms (SetLocalDescription ans) pc2) as [pc3|e3] eqn:E3;
        cbn [bind] in H.
      2:{ injection H as ->.
          exists [SetRemoteDescription d; CreateAnswer], (SetLocalDescription ans).
          change [SetRemoteDescription d; CreateAnswer]
            with ([SetRemoteDescription d] ++ [CreateAnswer])%list.
          rewrite List.app_assoc, <- E1, <- E2. apply Hi, E3. }
      apply invoke_ok in E3. apply IH in H.
      apply (Hn pc0 pc3
               [SetRemoteDescription d; CreateAnswer; SetLocalDescription ans]
               (fun pc => exists c, raises_on ms pc c = Some e)); [|exact H].
      subst pc3 pc2 pc1. rewrite <- !List.app_assoc. reflexivity.
    + apply IH in H.
      apply (Hn pc0 pc1 [SetRemoteDescription d]
               (fun pc => exists c, raises_on ms pc c = Some e)); assumption.
  - destruct (invoke ms (AddIceCandidate c) pc0) as [pc1|e1] eqn:E1;
      cbn [bind] in H.
    2:{ injection H as ->. exists [], (AddIceCandidate c).
        rewrite List.app_nil_r. apply Hi, E1. }
    apply invoke_ok in E1. apply IH in H.
    apply (Hn pc0 pc1 [AddIceCandidate c]
             (fun pc => exists c, raises_on ms pc c = Some e)); assumption.
  - discriminate.
  - apply IH in H. exact H.
Qed.

(** C5, amended: the negotiator keeps no count of descriptors and has no
    error of its own.  It applies every inbound descriptor as remote
    description; for an inbound offer it then creates an answer, applies
    it as local description and sends it; every inbound candidate is
    applied, wherever it stands among the descriptors.  So whenever the
    loop ends without an error, the remote descriptions applied are
    exactly the inbound descriptors received before [BYE], the local
    descriptions applied are answers, one for each inbound offer, and are
    exactly what was sent, and the candidates applied are exactly the
    inbound candidates.  An error is always one raised by a call on the
    peer connection (set remote description, create answer, set local
    description, add candidate) and is passed on unchanged; with a peer
    connection that accepts every call the loop never raises.  Server and
    client run the same loop. *)
Theorem C5_negotiator_forwards_every_descriptor
  (ms : MediaSession) (pc0 : RTCPeerConnection) (inbox : list signal)
  (outbox0 : list (option RTCSessionDescription)) :
  Server.consume_signaling ms pc0 inbox outbox0 =
    Client.consume_signaling ms pc0 inbox outbox0 /\
  (forall pc outbox exit,
     Client.consume_signaling ms pc0 inbox outbox0 = Ok (pc, outbox, exit) ->
     remote_applied pc
       = (remote_applied pc0 ++ descriptions_in (before_bye inbox))%list /\
     List.length (local_applied pc)
       = (List.length (local_applied pc0)
          + List.length (filter is_offer (descriptions_in (before_bye inbox))))%nat /\
     candidates_applied pc
       = (candidates_applied pc0 ++ candidates_in (before_bye inbox))%list /\
     exists tail answers,
       pc = (pc0 ++ tail)%list /\
       outbox = (outbox0 ++ map Some answers)%list /\
       local_applied pc = (local_applied pc0 ++ answers)%list /\
       Forall is_answer answers) /\
  (exists r, Client.consume_signaling permissive pc0 inbox outbox0 = Ok r) /\
  (forall c rest,
     raises_on ms pc0 (AddIceCandidate c) = None ->
     Client.consume_signaling ms pc0 (Candidate c :: rest) outbox0 =
     Client.consume_signaling ms (pc0 ++ [AddIceCandidate c])%list rest outbox0) /\
  (forall d e rest,
     raises_on ms pc0 (SetRemoteDescription d) = Some e ->
     Client.consume_signaling ms pc0 (Description d :: rest) outbox0 = Raise e) /\
  (forall d rest,
     type d = "offer" ->
     raises_on ms pc0 (SetRemoteDescription d) = None ->
     let pc1 := (pc0 ++ [SetRemoteDescription d])%list in
     let answer := {| sdp := created_sdp ms pc1; type := "answer" |} in
     (raises_on ms pc1 CreateAnswer = None ->
      raises_on ms (pc1 ++ [CreateAnswer])%list (SetLocalDescription answer) = None ->
      Client.consume_signaling ms pc0 (Description d :: rest) outbox0 =
      Client.consume_signaling ms
        (pc0 ++ [SetRemoteDescription d; CreateAnswer;
                 SetLocalDescription answer])%list
        rest (outbox0 ++ [Some answer])%list) /\
     (forall e,
        raises_on ms pc1 CreateAnswer = Some e ->
        Client.consume_signaling ms pc0 (Description d :: rest) outbox0 = Raise e) /\
     (forall e,
        raises_on ms pc1 CreateAnswer = None ->
        raises_on ms (pc1 ++ [CreateAnswer])%list (SetLocalDescription answer)
          = Some e ->
        Client.consume_signaling ms pc0 (Description d :: rest) outbox0 = Raise e)) /\
  (forall d rest,
     type d <> "offer" ->
     raises_on ms pc0 (SetRemoteDescription d) = None ->
     Client.consume_signaling ms pc0 (Description d :: rest) outbox0 =
     Client.consume_signaling ms (pc0 ++ [SetRemoteDescription d])%list rest outbox0) /\
  (forall c e rest,
     raises_on ms pc0 (AddIceCandidate c) = Some e ->
     Client.consume_signaling ms pc0 (Candidate c :: rest) outbox0 = Raise e) /\
  (forall e,
     Client.consume_signaling ms pc0 inbox outbox0 = Raise e ->
     exists tail c, raises_on ms (pc0 ++ tail)%list c = Some e).
Proof.
  split; [apply consume_signaling_same|].
  split.
  { intros pc outbox exit H.
    destruct (consume_signaling_applies ms inbox _ _ _ _ _ H) as (H1 & H2 & H3).
    destruct (consume_signaling_sends ms inbox _ _ _ _ _ H)
      as (tail & answers & Hp & Ho & Hl & Hf & _).
    repeat (split; [assumption|]).
    exists tail, answers. repeat split; assumption. }
  split; [apply consume_signaling_permissive|].
  split.
  { intros c rest H. cbn [Client.consume_signaling]. unfold invoke.
    rewrite H. reflexivity. }
  split.
  { intros d e rest H. cbn [Client.consume_signaling]. unfold invoke.
    rewrite H. reflexivity. }
  split.
  { intros d rest Hd H pc1 answer. apply String.eqb_eq in Hd.
    split; [|split].
    - intros Hc Hl. cbn [Client.consume_signaling].
      unfold createAnswer, invoke. rewrite H. cbn [bind]. rewrite Hd.
      fold pc1. rewrite Hc. cbn [bind]. fold answer. rewrite Hl. cbn [bind].
      rewrite localDescription_last. unfold pc1.
      rewrite <- !List.app_assoc. reflexivity.
    - intros e Hc. cbn [Client.consume_signaling].
      unfold createAnswer, invoke. rewrite H. cbn [bind]. rewrite Hd.
      fold pc1. rewrite Hc. reflexivity.
    - intros e Hc Hl. cbn [Client.consume_signaling].
      unfold createAnswer, invoke. rewrite H. cbn [bind]. rewrite Hd.
      fold pc1. rewrite Hc. cbn [bind]. fold answer. rewrite Hl. reflexivity. }
  split.
  { intros d rest Hd H. apply String.eqb_neq in Hd.
    cbn [Client.consume_signaling]. unfold invoke. rewrite H. cbn [bind].
    rewrite Hd. reflexivity. }
  split.
  { intros c e rest H. cbn [Client.consume_signaling]. unfold invoke.
    rewrite H. reflexivity. }
  apply consume_signaling_raises.
Qed.

Lemma C5_negotiator_forwards_witness :
  candidates_applied
    [AddIceCandidate {| candidate := "host" |};
     SetRemoteDescription {| sdp := "first"; type := "offer" |};
     CreateAnswer;
     SetLocalDescription {| sdp := "v=0"; type := "answer" |}]
  = [{| candidate := "host" |}] /\
  remote_applied
    [AddIceCandidate {| candidate := "host" |};
     SetRemoteDescription {| sdp := "first"; type := "offer" |};
     CreateAnswer;
     SetLocalDescription {| sdp := "v=0"; type := "answer" |}]
  = [{| sdp := "first"; type := "offer" |}].
Proof.
  destruct (C5_negotiator_forwards_every_descriptor state_checking []
              [Candidate {| candidate := "host" |};
               Description {| sdp := "first"; type := "offer" |};
               BYE] [])
    as (_ & H & _).
  destruct (H [AddIceCandidate {| candidate := "host" |};
               SetRemoteDescription {| sdp := "first"; type := "offer" |};
               CreateAnswer;
               SetLocalDescription {| sdp := "v=0"; type := "answer" |}]
              [Some {| sdp := "v=0"; type := "answer" |}] Closed eq_refl)
    as (H1 & _ & H3 & _).
  split; [exact H3 | exact H1].
Defined.

End Negotiator.

(** * Further properties *)

Lemma iter_succ_r {A : Type} (f : A -> A) (n : nat) (a : A) :
  iter (S n) f a = f (iter n f a).
Proof.
  revert a; induction n as [|n IH]; intros a; [reflexivity|].
  change (iter (S (S n)) f a) with (iter (S n) f (f a)).
  rewrite IH. reflexivity.
Qed.

Lemma iter_add {A : Type} (f : A -> A) (n m : nat) (a : A) :
  iter (n + m) f a = iter n f (iter m f a).
Proof.
  revert a. induction m as [|m IH]; intros a.
  - rewrite Nat.add_0_r. reflexivity.
  - rewrite Nat.add_succ_r. cbn [iter]. apply IH.
Qed.

(** ** ObjectSimulator: motion, bounces and frames *)

Section SimulatorMore.

Import Server.

Lemma ticks_succ (n : nat) (b : BouncingBallTrack) :
  ticks (S n) b = tick (ticks n b).
Proof. apply iter_succ_r. Qed.

Lemma tick_position (b : BouncingBallTrack) :
  position_x (tick b) = position_x b + speed_x b /\
  position_y (tick b) = position_y b + speed_y b.
Proof.
  destruct b as [[w h] x y vx vy r col st ts].
  unfold tick, get_next_image, update_delta_with_bound,
    set_position, set_speed_x, set_speed_y; cbn.
  repeat match goal with
         | |- context [if ?c then _ else _] => destruct c
         end; cbn; split; reflexivity.
Qed.

(** X1: from the constructed ball, at every tick each coordinate changes
    by exactly one unit and each velocity component is +1 or -1. *)
Theorem ball_moves_one_unit_per_tick (n : nat) :
  Z.abs (position_x (ticks (S n) init) - position_x (ticks n init)) = 1 /\
  Z.abs (position_y (ticks (S n) init) - position_y (ticks n init)) = 1 /\
  Z.abs (speed_x (ticks n init)) = 1 /\
  Z.abs (speed_y (ticks n init)) = 1.
Proof.
  rewrite ticks_succ.
  destruct (tick_position (ticks n init)) as [-> ->].
  destruct (ticks_safe n init init_safe) as [(_ & Hx & _) (_ & Hy & _)].
  lia.
Qed.

(** X2: in a state that is inside the rectangle with inward unit
    velocity, a tick inverts the velocity of an axis exactly when the
    moved ball stands on one of the two limits of that axis. *)
Theorem bounce_exactly_at_the_limits (b : BouncingBallTrack) :
  safe b ->
  (speed_x (tick b) = - speed_x b <->
   position_x (tick b) = ball_radius b \/
   position_x (tick b) = fst (screen_size b) - ball_radius b) /\
  (speed_y (tick b) = - speed_y b <->
   position_y (tick b) = ball_radius b \/
   position_y (tick b) = snd (screen_size b) - ball_radius b).
Proof.
  destruct b as [[w h] x y vx vy r col st ts].
  unfold safe, inward, tick, get_next_image, update_delta_with_bound,
    set_position, set_speed_x, set_speed_y; cbn.
  intros [Hx Hy].
  repeat match goal with
         | |- context [?a >=? ?b] => destruct (Z.geb_spec a b)
         | |- context [?a <=? ?b] => destruct (Z.leb_spec a b)
         end; cbn in *; (split; split; intros; lia).
Qed.

Lemma bounce_exactly_at_the_limits_witness :
  speed_x (tick (ticks 299 init)) = - speed_x (ticks 299 init) <->
  position_x (tick (ticks 299 init)) = ball_radius (ticks 299 init) \/
  position_x (tick (ticks 299 init))
  = fst (screen_size (ticks 299 init)) - ball_radius (ticks 299 init).
Proof.
  apply (bounce_exactly_at_the_limits (ticks 299 init)).
  unfold safe, inward. vm_compute. intuition discriminate.
Defined.

Lemma frame_shows_moved_ball (b : BouncingBallTrack) :
  fst (get_next_image b) =
  {| img_rows := snd (screen_size b);
     img_cols := fst (screen_size b);
     disc_center := (position_x (tick b), position_y (tick b));
     disc_radius := ball_radius b;
     disc_color := ball_color b |}.
Proof.
  destruct (tick_position b) as [-> ->]. reflexivity.
Qed.

(** X3: every image produced from the constructed ball is 480 rows by
    640 columns, and the centre of its disc, of radius 20, is the
    position of the moved ball, at least 20 from the row and column 0 and
    at most at column 620 and row 460.  The disc lies wholly within the
    columns 0 to 639 exactly when the centre is not at column 620, and
    within the rows 0 to 479 exactly when it is not at row 460; both
    limits are reached (in the images number 299 and 219), where the
    outermost column or row of the disc falls outside the image. *)
Theorem disc_is_a_radius_from_the_image_origin (n : nat) :
  img_rows (fst (get_next_image (ticks n init))) = 480 /\
  img_cols (fst (get_next_image (ticks n init))) = 640 /\
  disc_radius (fst (get_next_image (ticks n init))) = 20 /\
  disc_center (fst (get_next_image (ticks n init)))
  = (position_x (ticks (S n) init), position_y (ticks (S n) init)) /\
  20 <= fst (disc_center (fst (get_next_image (ticks n init)))) <= 620 /\
  20 <= snd (disc_center (fst (get_next_image (ticks n init)))) <= 460 /\
  (fst (disc_center (fst (get_next_image (ticks n init)))) + 20
   <= img_cols (fst (get_next_image (ticks n init))) - 1 <->
   position_x (ticks (S n) init) <> 620) /\
  (snd (disc_center (fst (get_next_image (ticks n init)))) + 20
   <= img_rows (fst (get_next_image (ticks n init))) - 1 <->
   position_y (ticks (S n) init) <> 460) /\
  fst (disc_center (fst (get_next_image (ticks 299 init)))) + 20
  = img_cols (fst (get_next_image (ticks 299 init))) /\
  snd (disc_center (fst (get_next_image (ticks 219 init)))) + 20
  = img_rows (fst (get_next_image (ticks 219 init))).
Proof.
  assert (E : fst (get_next_image (ticks n init)) =
              {| img_rows := 480; img_cols := 640;
                 disc_center := (position_x (ticks (S n) init),
                                 position_y (ticks (S n) init));
                 disc_radius := 20;
                 disc_color := ball_color (ticks n init) |}).
  { rewrite frame_shows_moved_ball, <- ticks_succ.
    destruct (ticks_frame n init) as [-> ->]. reflexivity. }
  rewrite E. cbn [img_rows img_cols disc_radius disc_center fst snd].
  pose proof (safe_contained _ (ticks_safe (S n) init init_safe)) as [Cx Cy].
  destruct (ticks_frame (S n) init) as [Hs Hr].
  rewrite Hs, Hr in Cx, Cy.
  change (fst (screen_size init)) with 640 in Cx.
  change (snd (screen_size init)) with 480 in Cy.
  change (ball_radius init) with 20 in Cx, Cy.
  split; [reflexivity|]. split; [reflexivity|]. split; [reflexivity|].
  split; [reflexivity|]. split; [lia|]. split; [lia|].
  split; [lia|]. split; [lia|].
  split; vm_compute; reflexivity.
Qed.

Lemma ticks_add (n m : nat) (b : BouncingBallTrack) :
  ticks (n + m) b = ticks n (ticks m b).
Proof. apply iter_add. Qed.

Lemma x_and_y_period :
  ticks (11 * 1200) init = init /\ ticks (15 * 880) init = init.
Proof. split; vm_compute; reflexivity. Qed.

(** X4: the motion of the constructed ball is periodic: after 13200
    ticks (eleven round trips along x, fifteen along y) the track is back
    in its initial state, so the state at tick [n + 13200] is the state
    at tick [n]. *)
Theorem ball_motion_is_periodic (n : nat) :
  ticks (n + 11 * 1200) init = ticks n init /\
  ticks (n + 15 * 880) init = ticks n init.
Proof.
  destruct x_and_y_period as [E E'].
  split; rewrite ticks_add; [rewrite E | rewrite E']; reflexivity.
Qed.

End SimulatorMore.

(** ** FramePacer and [recv] *)

Section PacerMore.

Import Server.

Lemma get_next_image_with_clock (b : BouncingBallTrack) (st : option Q)
  (ts : option Z) :
  get_next_image (with_clock b st ts) =
  (fst (get_next_image b), with_clock (tick b) st ts).
Proof.
  destruct b as [[w h] x y vx vy r col st0 ts0].
  unfold tick, get_next_image, update_delta_with_bound, with_clock,
    set_position, set_speed_x, set_speed_y; cbn.
  repeat match goal with
         | |- context [?a >=? ?b] => destruct (Z.geb_spec a b); cbn in *
         | |- context [?a <=? ?b] => destruct (Z.leb_spec a b); cbn in *
         end; try reflexivity; lia.
Qed.

Lemma next_timestamp_with_clock (now start : Q) (ts : Z) (b : BouncingBallTrack) :
  next_timestamp now (with_clock b (Some start) (Some ts)) =
  Ok (ts + frame_ticks, VIDEO_TIME_BASE,
      [wait_for start (ts + frame_ticks) now],
      with_clock b (Some start) (Some (ts + frame_ticks))).
Proof. reflexivity. Qed.

Lemma nth_frames_shift (k n : nat) :
  map nth_frame (seq (S k) n) = map (fun i => nth_frame (S i)) (seq k n).
Proof. rewrite <- seq_shift, map_map. reflexivity. Qed.

Lemma produce_running (clock : list Q) :
  forall (k : nat) (start : Q),
    produce clock (with_clock (ticks k init) (Some start)
                     (Some (Z.of_nat k * frame_ticks - frame_ticks))) =
    Ok (map nth_frame (seq k (List.length clock)),
        waits_from start (Z.of_nat k * frame_ticks - frame_ticks) clock,
        with_clock (ticks (k + List.length clock) init) (Some start)
          (Some (Z.of_nat (k + List.length clock) * frame_ticks - frame_ticks))).
Proof.
  induction clock as [|now clock IH]; intros k start.
  - cbn [produce List.length seq map waits_from]. rewrite Nat.add_0_r. reflexivity.
  - cbn [produce List.length seq map waits_from]. unfold recv.
    rewrite get_next_image_with_clock, next_timestamp_with_clock. cbn [bind].
    rewrite <- ticks_succ.
    replace (Z.of_nat k * frame_ticks - frame_ticks + frame_ticks)
      with (Z.of_nat (S k) * frame_ticks - frame_ticks) by lia.
    rewrite (IH (S k) start). cbn [bind].
    replace (S k + List.length clock)%nat with (k + S (List.length clock))%nat by lia.
    unfold nth_frame at 1. rewrite frame_ticks_3000.
    replace (Z.of_nat (S k) * 3000 - 3000) with (Z.of_nat k * 3000) by lia.
    reflexivity.
Qed.

(** X5: successive calls of [recv] on a new track never raise; call
    number [n] (from 0) returns the image of the ball after [n + 1] moves,
    with [pts = n * 3000] and time base 1/90000; afterwards the ball is
    where as many ticks put it, and the sleep arguments are those of the
    pacer alone. *)
Theorem recv_produces_numbered_frames (clock : list Q) :
  exists self',
    produce clock init =
    Ok (map nth_frame (seq 0 (List.length clock)),
        sleeps_of (pace clock init), self') /\
    position_x self' = position_x (ticks (List.length clock) init) /\
    position_y self' = position_y (ticks (List.length clock) init) /\
    speed_x self' = speed_x (ticks (List.length clock) init) /\
    speed_y self' = speed_y (ticks (List.length clock) init).
Proof.
  destruct clock as [|start rest].
  - exists init. repeat split.
  - destruct (pace_init start rest) as [self1 E1]. rewrite E1.
    cbn [sleeps_of produce]. unfold recv.
    change init with (with_clock init None None) at 1.
    rewrite get_next_image_with_clock.
    rewrite (next_timestamp_first start (with_clock (tick init) None None) eq_refl).
    cbn [bind].
    change (set_timestamp 0 (set_start start (with_clock (tick init) None None)))
      with (with_clock (ticks 1 init) (Some start)
              (Some (Z.of_nat 1 * frame_ticks - frame_ticks))).
    rewrite (produce_running rest 1 start). cbn [bind].
    exists (with_clock (ticks (1 + List.length rest) init) (Some start)
              (Some (Z.of_nat (1 + List.length rest) * frame_ticks - frame_ticks))).
    split; [|repeat split].
    cbn [List.length seq map]. reflexivity.
Qed.

Lemma pace_timestamps (clock : list Q) :
  timestamps_of (pace clock init)
  = map (fun n => Z.of_nat n * 3000) (seq 0 (List.length clock)).
Proof.
  destruct clock as [|start rest]; [reflexivity|].
  destruct (pace_init start rest) as [self' ->].
  cbn [timestamps_of List.length]. rewrite multiples_from_zero. reflexivity.
Qed.

Lemma produce_frames (clock : list Q) :
  frames_of (produce clock init) = map nth_frame (seq 0 (List.length clock)).
Proof.
  destruct clock as [|start rest]; [reflexivity|].
  cbn [produce]. unfold recv.
  change init with (with_clock init None None) at 1.
  rewrite get_next_image_with_clock.
  rewrite (next_timestamp_first start (with_clock (tick init) None None) eq_refl).
  cbn [bind].
  change (set_timestamp 0 (set_start start (with_clock (tick init) None None)))
    with (with_clock (ticks 1 init) (Some start)
            (Some (Z.of_nat 1 * frame_ticks - frame_ticks))).
  rewrite (produce_running rest 1 start). cbn [bind frames_of].
  reflexivity.
Qed.

Lemma nth_error_map_seq {A : Type} (f : nat -> A) (len n : nat) :
  (n < len)%nat -> nth_error (map f (seq 0 len)) n = Some (f n).
Proof.
  intros H. rewrite nth_error_map, (nth_error_nth' _ 0%nat), seq_nth;
    [reflexivity | exact H | rewrite length_seq; exact H].
Qed.

(** X6: over any run of the pacer from a new track, whatever the clock
    reads, the timestamp returned by call number [n], taken in the time
    base the pacer returns with it, is [n / 30] seconds, and so is the
    [pts] of frame number [n] returned by [recv] in the frame's own
    [time_base]: the nominal rate is 30 frames per second. *)
Theorem timestamps_are_thirtieths_of_a_second (clock : list Q) (n : nat) :
  (n < List.length clock)%nat ->
  (exists ts,
      nth_error (timestamps_of (pace clock init)) n = Some ts /\
      (inject_Z ts * VIDEO_TIME_BASE == Z.of_nat n # 30)%Q) /\
  (exists frame,
      nth_error (frames_of (produce clock init)) n = Some frame /\
      (inject_Z (pts frame) * time_base frame == Z.of_nat n # 30)%Q) /\
  (forall now self ts tb sleeps self',
      next_timestamp now self = Ok (ts, tb, sleeps, self') ->
      tb = VIDEO_TIME_BASE).
Proof.
  intros H. split; [|split].
  - rewrite pace_timestamps, (nth_error_map_seq _ _ _ H).
    eexists. split; [reflexivity|].
    unfold Qeq, VIDEO_TIME_BASE. cbn. lia.
  - rewrite produce_frames, (nth_error_map_seq _ _ _ H).
    eexists. split; [reflexivity|].
    cbn [pts time_base nth_frame]. unfold Qeq, VIDEO_TIME_BASE. cbn. lia.
  - intros now self ts tb sleeps self'. unfold next_timestamp.
    destruct (_timestamp self) as [t|].
    + cbn. destruct (_start self); [|discriminate].
      intros E. injection E as _ <- _ _. reflexivity.
    + intros E. injection E as _ <- _ _. reflexivity.
Qed.

Lemma timestamps_are_thirtieths_witness :
  exists ts,
    nth_error (timestamps_of (pace [0; 1; 5]%Q init)) 2 = Some ts /\
    (inject_Z ts * VIDEO_TIME_BASE == 2 # 30)%Q.
Proof.
  apply (timestamps_are_thirtieths_of_a_second [0; 1; 5]%Q 2).
  cbn. lia.
Defined.

(** X7: pacing is anchored to the first call: the duration handed to
    [asyncio.sleep] on a later call depends only on the first clock
    reading, the call number and the clock reading of that call, not on
    the readings in between. *)
Theorem sleep_ignores_earlier_delays (start now : Q) (rest rest' : list Q)
  (k : nat) :
  nth_error rest k = Some now ->
  nth_error rest' k = Some now ->
  nth_error (sleeps_of (pace (start :: rest) init)) k =
  nth_error (sleeps_of (pace (start :: rest') init)) k /\
  nth_error (sleeps_of (pace (start :: rest) init)) k =
  Some (ideal start (S k) - now)%Q.
Proof.
  intros H H'.
  destruct (pace_init start rest) as [s1 ->], (pace_init start rest') as [s2 ->].
  cbn [sleeps_of].
  rewrite (waits_from_nth start rest 0 k now H),
    (waits_from_nth start rest' 0 k now H'), wait_for_ideal.
  split; reflexivity.
Qed.

Lemma sleep_ignores_earlier_delays_witness :
  nth_error (sleeps_of (pace [0; 5; 7]%Q init)) 1 =
  nth_error (sleeps_of (pace [0; 100; 7]%Q init)) 1.
Proof.
  apply (sleep_ignores_earlier_delays 0 7 [5; 7]%Q [100; 7]%Q 1); reflexivity.
Defined.

End PacerMore.

(** ** ErrorEvaluator: errors and bounds of [compute_error] *)

Section ErrorMetricMore.

Import Py Server.

(** X9: [compute_error] raises [TypeError] on a report that is not a
    mapping, [KeyError] on a mapping without ["x"], or with a numeric
    ["x"] but without ["y"], and [TypeError] when the ["x"] entry is not
    a number. *)
Theorem compute_error_rejects_malformed_report
  (b : BouncingBallTrack) (v : pyval) (d : list (pyval * pyval)) :
  ((forall d', v <> PDict d') -> compute_error b v = Raise TypeError) /\
  (dict_get (PStr "x") d = None -> compute_error b (PDict d) = Raise KeyError) /\
  (forall a, dict_get (PStr "x") d = Some a -> as_int a = None ->
             compute_error b (PDict d) = Raise TypeError) /\
  (forall a z, dict_get (PStr "x") d = Some a -> as_int a = Some z ->
               dict_get (PStr "y") d = None ->
               compute_error b (PDict d) = Raise KeyError).
Proof.
  split; [|split; [|split]].
  - intros H. destruct v; try reflexivity. destruct (H items eq_refl).
  - intros H. unfold compute_error. cbn [getitem hashable]. rewrite H. reflexivity.
  - intros a Ha Hn. unfold compute_error. cbn [getitem hashable].
    rewrite Ha. cbn [bind]. unfold sub_int. rewrite Hn. reflexivity.
  - intros a z Ha Hz Hy. unfold compute_error. cbn [getitem hashable].
    rewrite Ha. cbn [bind]. unfold sub_int. rewrite Hz. cbn [bind].
    rewrite Hy. reflexivity.
Qed.

Lemma compute_error_rejects_witness :
  compute_error init (PTuple [PInt 10; PInt 20]) = Raise TypeError /\
  compute_error init (PDict [(PStr "y", PInt 20)]) = Raise KeyError.
Proof.
  split.
  - apply (compute_error_rejects_malformed_report init
             (PTuple [PInt 10; PInt 20]) []).
    intros d'. discriminate.
  - apply (compute_error_rejects_malformed_report init PNone
             [(PStr "y", PInt 20)]).
    reflexivity.
Defined.

Local Open Scope R_scope.

Lemma sum_squares_zero (a b : Z) : (a ^ 2 + b ^ 2 = 0 -> a = 0 /\ b = 0)%Z.
Proof. intros H. split; nia. Qed.

(** X10: the error is zero exactly when the reported coordinates are the
    position of the ball. *)
Theorem compute_error_is_zero_only_on_the_ball
  (b : BouncingBallTrack) (x y : Z) :
  returned (compute_error b (coordinate x y)) = Ok 0 <->
  x = position_x b /\ y = position_y b.
Proof.
  split.
  - destruct (Z.lt_ge_cases (squared_distance b x y) FLOAT_OVERFLOW) as [Hb|Hb].
    + rewrite (compute_error_in_range b x y Hb). cbn [returned bind fst].
      intros H. injection H as H.
      apply sqrt_eq_0 in H; [|apply IZR_le, squared_distance_nonneg].
      apply eq_IZR in H. apply sum_squares_zero in H. lia.
    + rewrite (compute_error_overflow b x y Hb). discriminate.
  - intros [-> ->].
    assert (Hb : (squared_distance b (position_x b) (position_y b)
                  < FLOAT_OVERFLOW)%Z).
    { unfold squared_distance. rewrite !Z.sub_diag. vm_compute. reflexivity. }
    rewrite (compute_error_in_range _ _ _ Hb). cbn [returned bind fst].
    unfold squared_distance. rewrite !Z.sub_diag. cbn. rewrite sqrt_0.
    reflexivity.
Qed.

(** X11: when the ball and the report both lie in the 640 by 480 frame,
    the error is at most the diagonal of the frame, 800. *)
Theorem compute_error_is_at_most_the_diagonal
  (b : BouncingBallTrack) (x y : Z) :
  (0 <= position_x b <= SCREEN_HEIGHT)%Z ->
  (0 <= position_y b <= SCREEN_WIDTH)%Z ->
  (0 <= x <= SCREEN_HEIGHT)%Z -> (0 <= y <= SCREEN_WIDTH)%Z ->
  exists d, returned (compute_error b (coordinate x y)) = Ok d /\ 0 <= d <= 800.
Proof.
  unfold SCREEN_HEIGHT, SCREEN_WIDTH. intros Hbx Hby Hx Hy.
  assert (Hd : (squared_distance b x y <= 800 * 800)%Z).
  { unfold squared_distance. nia. }
  assert (Hb : (squared_distance b x y < FLOAT_OVERFLOW)%Z).
  { assert (800 * 800 < FLOAT_OVERFLOW)%Z by (vm_compute; reflexivity). lia. }
  rewrite (compute_error_in_range b x y Hb). cbn [returned bind fst].
  eexists. split; [reflexivity|]. split; [apply sqrt_pos|].
  replace 800 with (sqrt (IZR (800 * 800))).
  - apply sqrt_le_1_alt, IZR_le. exact Hd.
  - rewrite mult_IZR. apply sqrt_square. lra.
Qed.

Lemma compute_error_is_at_most_the_diagonal_witness :
  exists d, returned (compute_error init (coordinate 0 0)) = Ok d /\ 0 <= d <= 800.
Proof.
  apply (compute_error_is_at_most_the_diagonal init 0 0);
    vm_compute; intuition discriminate.
Defined.

End ErrorMetricMore.

(** ** SessionNegotiator: the loop, the offerer and the answerer *)

Section NegotiatorMore.

Import Aiortc.

Ltac step_signaling IH :=
  cbn [Client.consume_signaling List.app];
  repeat match goal with
         | |- context [bind (invoke ?ms ?c ?pc)] =>
             destruct (invoke ms c pc); cbn [bind]; [|reflexivity]
         | |- context [bind (createAnswer ?ms ?pc)] =>
             destruct (createAnswer ms pc) as [[? ?]|]; cbn [bind]; [|reflexivity]
         | |- context [if ?c then _ else _] => destruct c
         end;
  try apply IH; try reflexivity.

(** X12: the loop ends at the first [BYE]: whatever follows it on the
    signaling channel is never received, in the server and in the
    client. *)
Theorem consume_signaling_stops_at_bye
  (ms : MediaSession) (before after : list signal) :
  forall pc outbox,
    Client.consume_signaling ms pc (before ++ BYE :: after) outbox =
    Client.consume_signaling ms pc (before ++ [BYE]) outbox /\
    Server.consume_signaling ms pc (before ++ BYE :: after) outbox =
    Server.consume_signaling ms pc (before ++ [BYE]) outbox.
Proof.
  assert (H : forall pc outbox,
             Client.consume_signaling ms pc (before ++ BYE :: after) outbox =
             Client.consume_signaling ms pc (before ++ [BYE]) outbox).
  { induction before as [|obj before IH]; intros pc outbox; [reflexivity|].
    destruct obj as [d|c| |]; step_signaling IH. }
  intros pc outbox. split; [apply H|].
  rewrite (consume_signaling_same ms (before ++ BYE :: after) pc outbox).
  rewrite (consume_signaling_same ms (before ++ [BYE]) pc outbox).
  apply H.
Qed.

(** X13: an inbound object that is neither a session description, nor a
    candidate, nor [BYE] has no effect: the loop behaves as if it had not
    been received. *)
Theorem consume_signaling_skips_other_objects
  (ms : MediaSession) (inbox : list signal) :
  forall pc outbox,
    Client.consume_signaling ms pc inbox outbox =
    Client.consume_signaling ms pc (filter is_handled inbox) outbox.
Proof.
  induction inbox as [|obj inbox IH]; intros pc outbox; [reflexivity|].
  destruct obj as [d|c| |]; cbn [filter is_handled]; step_signaling IH.
Qed.

(** X14: when the loop ends without an error, what it sent on the
    signaling channel is exactly the local descriptions it applied, in
    order, each of them an answer, one for every offer received before
    [BYE]; the calls it made on the peer connection were added after
    those made before; and it ended by [break] exactly when a [BYE] was
    received. *)
Theorem consume_signaling_sends_one_answer_per_offer
  (ms : MediaSession) (inbox : list signal)
  (pc0 pc : RTCPeerConnection)
  (outbox0 outbox : list (option RTCSessionDescription)) (exit : loop_exit) :
  Client.consume_signaling ms pc0 inbox outbox0 = Ok (pc, outbox, exit) ->
  exists tail answers,
    pc = (pc0 ++ tail)%list /\
    outbox = (outbox0 ++ map Some answers)%list /\
    local_applied pc = (local_applied pc0 ++ answers)%list /\
    Forall is_answer answers /\
    List.length answers
      = List.length (filter is_offer (descriptions_in (before_bye inbox))) /\
    (exit = Closed <-> In BYE inbox).
Proof.
  intros H.
  destruct (consume_signaling_sends ms inbox _ _ _ _ _ H)
    as (tail & answers & Hp & Ho & Hl & Hf & Hx).
  destruct (consume_signaling_applies ms inbox _ _ _ _ _ H) as (_ & Hn & _).
  exists tail, answers. repeat split; try assumption; try apply Hx.
  rewrite Hl, List.length_app in Hn. lia.
Qed.

Lemma consume_signaling_sends_witness :
  exists tail answers,
    [SetRemoteDescription {| sdp := "first"; type := "offer" |};
     CreateAnswer;
     SetLocalDescription {| sdp := "v=0"; type := "answer" |}]
    = ([] ++ tail)%list /\
    [Some {| sdp := "v=0"; type := "answer" |}] = ([] ++ map Some answers)%list.
Proof.
  destruct (consume_signaling_sends_one_answer_per_offer state_checking
              [Description {| sdp := "first"; type := "offer" |}; BYE; Nothing]
              []
              [SetRemoteDescription {| sdp := "first"; type := "offer" |};
               CreateAnswer;
               SetLocalDescription {| sdp := "v=0"; type := "answer" |}]
              [] [Some {| sdp := "v=0"; type := "answer" |}] Closed eq_refl)
    as (tail & answers & H1 & H2 & _).
  exists tail, answers. split; assumption.
Defined.

Lemma createOffer_ok (ms : MediaSession) (pc pc' : RTCPeerConnection)
  (offer : RTCSessionDescription) :
  createOffer ms pc = Ok (offer, pc') ->
  pc' = (pc ++ [CreateOffer])%list /\ type offer = "offer".
Proof.
  unfold createOffer.
  destruct (invoke ms CreateOffer pc) as [pc1|e] eqn:E; [|discriminate].
  cbn [bind]. intros H. injection H as <- <-.
  split; [apply (invoke_ok ms _ _ _ E) | reflexivity].
Qed.

(** X15: when [run_offer] on a new peer connection ends without an
    error, the server first created the ["coordinates"] channel, added
    its track, created an offer and applied it as local description, and
    the offer is the first thing it sent; everything sent afterwards is an
    answer it applied; the remote descriptions and candidates applied are
    those received before [BYE]; and the ball of the track is the
    constructed one. *)
Theorem run_offer_sends_its_offer_first
  (ms : MediaSession) (inbox : list signal) (pc : RTCPeerConnection)
  (outbox : list (option RTCSessionDescription))
  (balltrack : Server.BouncingBallTrack) (exit : loop_exit) :
  Server.run_offer ms [] inbox = Ok (pc, outbox, balltrack, exit) ->
  exists offer tail answers,
    type offer = "offer" /\
    pc = ([CreateDataChannel "coordinates"; AddTrack; CreateOffer;
           SetLocalDescription offer] ++ tail)%list /\
    outbox = Some offer :: map Some answers /\
    local_applied pc = offer :: answers /\
    Forall is_answer answers /\
    remote_applied pc = descriptions_in (before_bye inbox) /\
    candidates_applied pc = candidates_in (before_bye inbox) /\
    balltrack = Server.init.
Proof.
  unfold Server.run_offer. intros H.
  destruct (invoke ms (CreateDataChannel "coordinates") []) as [pc1|e] eqn:E1;
    cbn [bind] in H; [|discriminate].
  apply invoke_ok in E1.
  destruct (invoke ms AddTrack pc1) as [pc2|e] eqn:E2;
    cbn [bind] in H; [|discriminate].
  apply invoke_ok in E2.
  destruct (createOffer ms pc2) as [[offer pc3]|e] eqn:E3;
    cbn [bind] in H; [|discriminate].
  apply createOffer_ok in E3 as [E3 Ht].
  destruct (invoke ms (SetLocalDescription offer) pc3) as [pc4|e] eqn:E4;
    cbn [bind] in H; [|discriminate].
  apply invoke_ok in E4.
  rewrite consume_signaling_same in H.
  destruct (Client.consume_signaling ms pc4 inbox [localDescription pc4])
    as [[[pc5 out5] exit5]|e] eqn:E5; cbn [bind] in H; [|discriminate].
  injection H as <- <- <- <-.
  destruct (consume_signaling_sends ms inbox _ _ _ _ _ E5)
    as (tail & answers & Hp & Ho & Hl & Hf & _).
  destruct (consume_signaling_applies ms inbox _ _ _ _ _ E5) as (Hr & _ & Hc).
  subst pc4 pc3 pc2 pc1. rewrite localDescription_last in Ho.
  cbn in Hp, Ho, Hl, Hr, Hc.
  exists offer, tail, answers. repeat split; assumption.
Qed.

Lemma run_offer_sends_its_offer_first_witness :
  exists offer tail answers,
    type offer = "offer" /\
    [CreateDataChannel "coordinates"; AddTrack; CreateOffer;
     SetLocalDescription {| sdp := "v=0"; type := "offer" |};
     SetRemoteDescription {| sdp := "reply"; type := "answer" |}]
    = ([CreateDataChannel "coordinates"; AddTrack; CreateOffer;
        SetLocalDescription offer] ++ tail)%list /\
    [Some {| sdp := "v=0"; type := "offer" |}] = Some offer :: map Some answers.
Proof.
  destruct (run_offer_sends_its_offer_first state_checking
              [Description {| sdp := "reply"; type := "answer" |}; BYE]
              [CreateDataChannel "coordinates"; AddTrack; CreateOffer;
               SetLocalDescription {| sdp := "v=0"; type := "offer" |};
               SetRemoteDescription {| sdp := "reply"; type := "answer" |}]
              [Some {| sdp := "v=0"; type := "offer" |}]
              Server.init Closed eq_refl)
    as (offer & tail & answers & H1 & H2 & H3 & _).
  exists offer, tail, answers. repeat split; assumption.
Defined.

(** X16: when [run_answer] on a new peer connection ends without an
    error, the client registered its track and data-channel callbacks
    before anything else, never applied or sent an offer of its own: what
    it sent is exactly the local descriptions it applied, all answers,
    one per offer received; and the remote descriptions applied are those
    received before [BYE]. *)
Theorem run_answer_only_sends_answers
  (ms : MediaSession) (inbox : list signal) (pc : RTCPeerConnection)
  (outbox : list (option RTCSessionDescription)) (exit : loop_exit) :
  Client.run_answer ms [] inbox = Ok (pc, outbox, exit) ->
  exists tail answers,
    pc = ([On "track"; On "datachannel"] ++ tail)%list /\
    outbox = map Some answers /\
    local_applied pc = answers /\
    Forall is_answer answers /\
    List.length answers
      = List.length (filter is_offer (descriptions_in (before_bye inbox))) /\
    remote_applied pc = descriptions_in (before_bye inbox) /\
    (exit = Closed <-> In BYE inbox).
Proof.
  unfold Client.run_answer. intros H.
  destruct (invoke ms (On "track") []) as [pc1|e] eqn:E1;
    cbn [bind] in H; [|discriminate].
  apply invoke_ok in E1.
  destruct (invoke ms (On "datachannel") pc1) as [pc2|e] eqn:E2;
    cbn [bind] in H; [|discriminate].
  apply invoke_ok in E2.
  destruct (consume_signaling_sends ms inbox _ _ _ _ _ H)
    as (tail & answers & Hp & Ho & Hl & Hf & Hx).
  destruct (consume_signaling_applies ms inbox _ _ _ _ _ H) as (Hr & Hn & _).
  subst pc2 pc1. rewrite Hl in Hn. cbn in Hp, Ho, Hl, Hr, Hn.
  exists tail, answers. repeat split; try assumption; apply Hx.
Qed.

Lemma run_answer_only_sends_answers_witness :
  exists tail answers,
    [On "track"; On "datachannel";
     SetRemoteDescription {| sdp := "first"; type := "offer" |};
     CreateAnswer;
     SetLocalDescription {| sdp := "v=0"; type := "answer" |}]
    = ([On "track"; On "datachannel"] ++ tail)%list /\
    [Some {| sdp := "v=0"; type := "answer" |}] = map Some answers.
Proof.
  destruct (run_answer_only_sends_answers state_checking
              [Description {| sdp := "first"; type := "offer" |}; BYE]
              [On "track"; On "datachannel";
               SetRemoteDescription {| sdp := "first"; type := "offer" |};
               CreateAnswer;
               SetLocalDescription {| sdp := "v=0"; type := "answer" |}]
              [Some {| sdp := "v=0"; type := "answer" |}] Closed eq_refl)
    as (tail & answers & H1 & H2 & _).
  exists tail, answers. split; assumption.
Defined.

End NegotiatorMore.

(** ** The client pipeline: receipt, detection, reporting *)

Section Pipeline.

Import Py Aiortc Client.

Lemma events_only_add_coordinates (events : list event) :
  forall self,
    coordinate_queue (fold_left apply_event events self)
    = (coordinate_queue self ++ puts_in events)%list /\
    image_queue (fold_left apply_event events self) = image_queue self.
Proof.
  induction events as [|e events IH]; intros self.
  - cbn. rewrite List.app_nil_r. split; reflexivity.
  - cbn [fold_left puts_in]. destruct (IH (apply_event self e)) as [-> ->].
    destruct e; cbn; [rewrite <- List.app_assoc|..]; split; reflexivity.
Qed.

Lemma iteration_conserves (self : Client) :
  map as_message (coordinate_queue self)
  = (snd (send_coordinates_iteration self)
     ++ map as_message (coordinate_queue (fst (send_coordinates_iteration self))))%list /\
  image_queue (fst (send_coordinates_iteration self)) = image_queue self.
Proof.
  unfold send_coordinates_iteration.
  destruct (channel self) as [ch|]; [|split; reflexivity].
  destruct (readyState ch =? "open")%string; [|split; reflexivity].
  destruct (coordinate_queue self) eqn:E; cbn [fst snd coordinate_queue];
    rewrite ?E; split; reflexivity.
Qed.

(** X17: over any run of the reporting loop, with coordinates arriving
    and the channel being set, opened or closed between iterations, no
    coordinate is lost, sent twice or sent out of order: the coordinates
    first queued followed by those put later are exactly the messages
    sent, in order, followed by what is still queued. *)
Theorem reporter_sends_coordinates_in_order
  (schedule : list (list event)) (self : Client) :
  map as_message (coordinate_queue self ++ flat_map puts_in schedule)
  = (List.concat (snd (send_coordinates_to_server schedule self))
     ++ map as_message
          (coordinate_queue (fst (send_coordinates_to_server schedule self))))%list /\
  image_queue (fst (send_coordinates_to_server schedule self)) = image_queue self.
Proof.
  revert self. induction schedule as [|events schedule IH]; intros self.
  - cbn. rewrite List.app_nil_r. split; reflexivity.
  - cbn [send_coordinates_to_server flat_map].
    destruct (iteration_conserves self) as [H1 H2].
    destruct (send_coordinates_iteration self) as [self1 out].
    cbn [fst snd] in H1, H2.
    destruct (events_only_add_coordinates events self1) as [H3 H4].
    destruct (IH (fold_left apply_event events self1)) as [H5 H6].
    destruct (send_coordinates_to_server schedule
                (fold_left apply_event events self1)) as [self2 outs].
    cbn [fst snd List.concat] in *.
    rewrite H3 in H5. split; [|congruence].
    rewrite map_app, H1, <- !List.app_assoc. f_equal.
    rewrite <- H5, <- map_app, List.app_assoc. reflexivity.
Qed.

(** X18: with the channel open and nothing else happening, [n]
    iterations send the [n] oldest queued coordinates, one message each,
    oldest first, append them to what the channel has sent, and leave the
    rest of the queue. *)
Theorem open_channel_drains_the_queue (n : nat) :
  forall (self : Client) (ch : RTCDataChannel),
    channel self = Some ch -> readyState ch = "open" ->
    List.concat (snd (send_coordinates_to_server (repeat [] n) self))
    = map as_message (firstn n (coordinate_queue self)) /\
    coordinate_queue (fst (send_coordinates_to_server (repeat [] n) self))
    = skipn n (coordinate_queue self) /\
    channel (fst (send_coordinates_to_server (repeat [] n) self))
    = Some {| label := label ch; readyState := "open";
              sent := (sent ch
                       ++ map as_message (firstn n (coordinate_queue self)))%list |}.
Proof.
  induction n as [|n IH]; intros self ch Hch Hopen.
  - cbn. rewrite List.app_nil_r, Hch, <- Hopen. destruct ch. repeat split.
  - cbn [repeat send_coordinates_to_server fold_left].
    assert (Eo : (readyState ch =? "open")%string = true)
      by (apply String.eqb_eq, Hopen).
    unfold send_coordinates_iteration. rewrite Hch, Eo.
    destruct (coordinate_queue self) as [|c rest] eqn:Hq.
    + specialize (IH self ch Hch Hopen). rewrite Hq in IH.
      destruct (send_coordinates_to_server (repeat [] n) self) as [self2 outs].
      cbn [fst snd List.concat] in *. destruct IH as (H1 & H2 & H3).
      rewrite firstn_nil, skipn_nil in *. cbn [app map] in *.
      repeat split; assumption.
    + specialize (IH {| image_queue := image_queue self;
                        coordinate_queue := rest;
                        channel := Some (send (Text (str c)) ch) |}
                     (send (Text (str c)) ch) eq_refl Hopen).
      cbn [coordinate_queue] in IH.
      destruct (send_coordinates_to_server (repeat [] n) _) as [self2 outs].
      cbn [fst snd List.concat firstn skipn map] in *. destruct IH as (H1 & H2 & H3).
      rewrite H1, H2, H3. cbn [send label sent readyState].
      rewrite <- List.app_assoc. repeat split.
Qed.

Lemma open_channel_drains_the_queue_witness :
  List.concat (snd (send_coordinates_to_server (repeat [] 2)
                 {| image_queue := [];
                    coordinate_queue := [coordinate 1 2; coordinate 3 4;
                                         coordinate 5 6];
                    channel := Some {| label := "coordinates";
                                       readyState := "open"; sent := [] |} |}))
  = map as_message (firstn 2 [coordinate 1 2; coordinate 3 4; coordinate 5 6]).
Proof.
  apply (open_channel_drains_the_queue 2
           {| image_queue := [];
              coordinate_queue := [coordinate 1 2; coordinate 3 4; coordinate 5 6];
              channel := Some {| label := "coordinates";
                                 readyState := "open"; sent := [] |} |}
           {| label := "coordinates"; readyState := "open"; sent := [] |});
    reflexivity.
Defined.

Lemma c_int_range (z : Z) : - 2 ^ 31 <= c_int z < 2 ^ 31.
Proof.
  unfold c_int.
  pose proof (Z.mod_pos_bound (z + 2 ^ 31) (2 ^ 32) eq_refl). lia.
Qed.

Lemma c_int_small (z : Z) : - 2 ^ 31 <= z < 2 ^ 31 -> c_int z = z.
Proof.
  intros H. unfold c_int. rewrite Z.mod_small; lia.
Qed.

Lemma detections_app (detect_center : Server.image -> option (Z * Z))
  (a b : list Server.image) :
  detections detect_center (a ++ b)
  = (detections detect_center a ++ detections detect_center b)%list.
Proof.
  induction a as [|image a IH]; [reflexivity|].
  cbn [List.app detections]. destruct (detect_center image); rewrite IH; reflexivity.
Qed.

(** X19: [n] iterations of the detection worker take the [n] oldest
    images off the image queue and append to the coordinate queue, in the
    same order, one mapping for each image in which a centre was
    detected and nothing for the others; the data channel is not
    touched. *)
Theorem image_parser_queues_detections_in_order
  (detect_center : Server.image -> option (Z * Z)) (n : nat) :
  forall self : Client,
    image_queue (iter n (run_iteration detect_center) self)
    = skipn n (image_queue self) /\
    coordinate_queue (iter n (run_iteration detect_center) self)
    = (coordinate_queue self
       ++ detections detect_center (firstn n (image_queue self)))%list /\
    channel (iter n (run_iteration detect_center) self) = channel self.
Proof.
  induction n as [|n IH]; intros self.
  - cbn. rewrite List.app_nil_r. repeat split.
  - cbn [iter]. destruct (IH (run_iteration detect_center self)) as (H1 & H2 & H3).
    rewrite H1, H2, H3. unfold run_iteration.
    destruct (image_queue self) as [|image images] eqn:Hq.
    + rewrite Hq, firstn_nil, skipn_nil. cbn. repeat split.
    + cbn [firstn skipn detections].
      destruct (detect_center image) as [center|]; cbn.
      * rewrite <- List.app_assoc. repeat split.
      * repeat split.
Qed.

Lemma run_iteration_queues (detect_center : Server.image -> option (Z * Z))
  (self : Client) :
  coordinate_queue (run_iteration detect_center self) = coordinate_queue self \/
  exists x y,
    coordinate_queue (run_iteration detect_center self)
    = (coordinate_queue self ++ [coordinate (c_int x) (c_int y)])%list.
Proof.
  unfold run_iteration.
  destruct (image_queue self) as [|image images]; [left; reflexivity|].
  destruct (detect_center image) as [[x y]|]; [|left; reflexivity].
  right. exists x, y. reflexivity.
Qed.

(** X20: whatever the detector returns, every coordinate that iterations
    of [ImageParser.run] add to the coordinate queue is a mapping with
    integer ["x"] and ["y"] entries that fit a C [int], and nothing
    already queued is removed or changed; a detected centre that fits is
    queued unchanged, one that does not is queued wrapped to 32 bits. *)
Theorem image_parser_queues_int_pairs
  (detect_center : Server.image -> option (Z * Z)) (n : nat) (self : Client) :
  (exists added,
      coordinate_queue (iter n (run_iteration detect_center) self)
      = (coordinate_queue self ++ added)%list /\
      Forall (fun c => exists x y,
                  c = coordinate x y /\
                  - 2 ^ 31 <= x < 2 ^ 31 /\ - 2 ^ 31 <= y < 2 ^ 31 /\
                  is_xy_mapping c = true)
             added) /\
  (forall image images x y,
      image_queue self = image :: images ->
      detect_center image = Some (x, y) ->
      coordinate_queue (run_iteration detect_center self)
      = (coordinate_queue self
         ++ [coordinate ((x + 2 ^ 31) mod 2 ^ 32 - 2 ^ 31)
                        ((y + 2 ^ 31) mod 2 ^ 32 - 2 ^ 31)])%list /\
      (- 2 ^ 31 <= x < 2 ^ 31 -> - 2 ^ 31 <= y < 2 ^ 31 ->
       coordinate_queue (run_iteration detect_center self)
       = (coordinate_queue self ++ [coordinate x y])%list)).
Proof.
  split.
  - revert self. induction n as [|n IH]; intros self.
    + exists []. rewrite List.app_nil_r. split; [reflexivity | constructor].
    + cbn [iter].
      destruct (IH (run_iteration detect_center self)) as (added & -> & Hf).
      destruct (run_iteration_queues detect_center self) as [-> | (x & y & ->)].
      * exists added. split; [reflexivity | exact Hf].
      * exists (coordinate (c_int x) (c_int y) :: added).
        rewrite <- List.app_assoc. split; [reflexivity|].
        constructor; [|exact Hf].
        exists (c_int x), (c_int y).
        repeat split; try apply c_int_range.
  - intros image images x y Hq Hd. unfold run_iteration.
    rewrite Hq, Hd. cbn [fst snd coordinate_queue]. split; [reflexivity|].
    intros Hx Hy. rewrite (c_int_small x Hx), (c_int_small y Hy). reflexivity.
Qed.

Lemma image_parser_queues_int_pairs_witness :
  coordinate_queue
    (run_iteration (fun _ => Some (321, 241))
       {| image_queue := [fst (Server.get_next_image Server.init)];
          coordinate_queue := []; channel := None |})
  = [coordinate 321 241].
Proof.
  destruct (image_parser_queues_int_pairs (fun _ => Some (321, 241)) 1
              {| image_queue := [fst (Server.get_next_image Server.init)];
                 coordinate_queue := []; channel := None |}) as [_ H].
  apply (H (fst (Server.get_next_image Server.init)) [] 321 241);
    [reflexivity | reflexivity | lia | lia].
Defined.

(** X21: the receiving track hands every frame on unchanged, shows each
    image once in the ["Remote Stream"] window followed by a 10 ms key
    wait, and appends the images to the image queue in arrival order,
    after those already queued; the coordinate queue and the channel are
    not touched. *)
Theorem receive_queues_every_frame_in_order
  (frames : list Server.VideoFrame) :
  forall self : Client,
    fst (fst (receive frames self)) = frames /\
    image_queue (snd (fst (receive frames self)))
    = (image_queue self ++ map Server.frame_image frames)%list /\
    coordinate_queue (snd (fst (receive frames self))) = coordinate_queue self /\
    channel (snd (fst (receive frames self))) = channel self /\
    snd (receive frames self)
    = flat_map (fun frame => [Imshow "Remote Stream" (Server.frame_image frame);
                              WaitKey 10]) frames.
Proof.
  induction frames as [|frame frames IH]; intros self.
  - cbn. rewrite List.app_nil_r. repeat split.
  - cbn [receive recv process_image].
    destruct (IH {| image_queue := (image_queue self ++ [Server.frame_image frame])%list;
                    coordinate_queue := coordinate_queue self;
                    channel := channel self |}) as (H1 & H2 & H3 & H4 & H5).
    destruct (receive frames _) as [[outs self2] shown].
    cbn [fst snd image_queue coordinate_queue channel flat_map map List.app] in *.
    rewrite H1, H2, H3, H4, H5, <- List.app_assoc. repeat split.
Qed.

(** X22: end to end on the client and back to the server: a frame
    received on an idle client with an open channel, in whose image the
    detector finds the centre [(x, y)], leads after one worker iteration
    and one reporting iteration to exactly one message, and the server's
    handler computes from that message the distance between [(x, y)] and
    its ball, for the server's ball after any number of frames and for
    any ball within the range of [math.sqrt]; both client queues are
    empty again. *)
Theorem detected_centre_reaches_the_server
  (detect_center : Server.image -> option (Z * Z))
  (frame : Server.VideoFrame) (x y : Z)
  (ch : RTCDataChannel) (lbl : string) (b : Server.BouncingBallTrack) :
  detect_center (Server.frame_image frame) = Some (x, y) ->
  - 2 ^ 31 <= x < 2 ^ 31 -> - 2 ^ 31 <= y < 2 ^ 31 ->
  readyState ch = "open" ->
  forall (self1 self2 self3 : Client) (out : list message),
    self1 = snd (fst (recv frame {| image_queue := []; coordinate_queue := [];
                                    channel := Some ch |})) ->
    self2 = run_iteration detect_center self1 ->
    (self3, out) = send_coordinates_iteration self2 ->
    out = [as_message (coordinate x y)] /\
    image_queue self3 = [] /\ coordinate_queue self3 = [] /\
    (forall n,
        Server.on_message lbl (Server.ticks n Server.init)
          (as_message (coordinate x y)) =
        Some ([Server.Received lbl (coordinate x y);
               Server.ComputedError
                 (Server.position_x (Server.ticks n Server.init))
                 (Server.position_y (Server.ticks n Server.init))
                 (sqrt (IZR ((x - Server.position_x (Server.ticks n Server.init)) ^ 2
                             + (y - Server.position_y (Server.ticks n Server.init)) ^ 2)))],
              Ok tt)) /\
    ((x - Server.position_x b) ^ 2 + (y - Server.position_y b) ^ 2
     < Server.FLOAT_OVERFLOW ->
     Server.on_message lbl b (as_message (coordinate x y)) =
     Some ([Server.Received lbl (coordinate x y);
            Server.ComputedError (Server.position_x b) (Server.position_y b)
              (sqrt (IZR ((x - Server.position_x b) ^ 2
                          + (y - Server.position_y b) ^ 2)))],
           Ok tt)).
Proof.
  intros Hd Hx Hy Hopen self1 self2 self3 out -> -> H.
  cbv [recv process_image run_iteration fst snd List.app
       image_queue coordinate_queue channel] in H.
  rewrite Hd in H.
  cbv [fst snd List.app] in H.
  rewrite (c_int_small x Hx), (c_int_small y Hy) in H.
  unfold send_coordinates_iteration in H.
  cbn [image_queue coordinate_queue channel] in H.
  apply String.eqb_eq in Hopen. rewrite Hopen in H.
  injection H as -> ->.
  cbn [image_queue coordinate_queue].
  assert (Hm : forall b',
             squared_distance b' x y < Server.FLOAT_OVERFLOW ->
             Server.on_message lbl b' (as_message (coordinate x y)) =
             Some ([Server.Received lbl (coordinate x y);
                    Server.ComputedError (Server.position_x b')
                      (Server.position_y b')
                      (sqrt (IZR (squared_distance b' x y)))],
                   Ok tt)).
  { intros b' Hb. unfold as_message, Server.on_message.
    rewrite (literal_eval_coordinate x y Hx Hy),
      (compute_error_in_range b' x y Hb).
    reflexivity. }
  repeat split.
  - intros n. apply (Hm (Server.ticks n Server.init)).
    apply server_ball_in_range; assumption.
  - apply Hm.
Qed.

Lemma detected_centre_reaches_the_server_witness :
  Server.on_message "coordinates" Server.init (as_message (coordinate 321 241)) =
  Some ([Server.Received "coordinates" (coordinate 321 241);
         Server.ComputedError 320 240
           (sqrt (IZR ((321 - 320) ^ 2 + (241 - 240) ^ 2)))],
        Ok tt).
Proof.
  eapply (detected_centre_reaches_the_server
            (fun _ => Some (321, 241))
            {| Server.frame_image := fst (Server.get_next_image Server.init);
               Server.pts := 0; Server.time_base := Server.VIDEO_TIME_BASE |}
            321 241
            {| label := "coordinates"; readyState := "open"; sent := [] |}
            "coordinates" Server.init eq_refl);
    try reflexivity; lia.
Defined.

End Pipeline.
